(** * DharmaCraft game server: session runtime

    A shallow embedding of [game-server/src/main.cpp]: the chunked voxel
    world with its run-length encoded serialization, the player record, the
    bounded session roster with idle eviction, and the GameLift callbacks
    that install and tear down the process-wide session.

    Conventions of the embedding.
    - A C++ [int] is a [Z]; arithmetic that can leave the 32-bit range is
      written with [wrap32].  [time_t] readings are [Z] seconds.
    - [std::time(nullptr)] is the only clock the code reads; every operation
      that reads it takes the reading as an argument [now].
    - A [std::map<std::string, std::shared_ptr<T>>] is a [gmap string T]; a
      raw pointer handed out by [getChunk]/[getPlayer] is the key it was
      found under, and a write through the pointer is an update of the map
      at that key.
    - A finite [float] is the rational it denotes; the one rounding the code
      performs, [static_cast<float>(int)], is written out.
    - Console logging through [std::cout] and the mutexes are not part of
      the state: the embedding is the sequential behaviour of each call. *)

From stdpp Require Import gmap strings list fin_maps pretty.
From Stdlib Require Import QArith Qround.

Open Scope Z_scope.

(** ** Game world constants *)

Definition WORLD_SIZE : Z := 1000.
Definition CHUNK_SIZE : Z := 16.
Definition MAX_PLAYERS : Z := 16.
Definition TICK_RATE : Z := 20.

(** ** Machine arithmetic *)

(** Two's-complement reduction of an integer to the range of a 32-bit
    [int]. *)
Definition wrap32 (n : Z) : Z := (n + 2 ^ 31) mod 2 ^ 32 - 2 ^ 31.

(** A finite single-precision value, as the rational it denotes. *)
Definition float : Type := Q.

(** [static_cast<float>(x)]: an [int] of magnitude below [2^24] converts
    exactly; a larger one keeps its 24 leading bits, rounded to nearest
    with ties to the even significand (IEEE 754 binary32). *)
Definition float_of_int (x : Z) : float :=
  let a := Z.abs x in
  if a <? 2 ^ 24 then inject_Z x
  else
    let e := Z.log2 a - 23 in
    let q := Z.shiftr a e in
    let r := Z.land a (Z.ones e) in
    let half := 2 ^ (e - 1) in
    let q' := if (half <? r) || ((r =? half) && Z.odd q) then q + 1 else q in
    inject_Z (Z.sgn x * (q' * 2 ^ e)).

(** ** JSON values written by the serializers *)

#[local] Set Warnings "-register-all".
Inductive JsonValue : Type :=
| JInteger (n : Z)
| JString (s : string)
| JArray (items : list JsonValue)
| JObject (members : list (string * JsonValue)).

Definition dquote : string := String (Ascii.ascii_of_nat 34) EmptyString.

(** Member names and chunk ids hold no character that needs escaping. *)
Definition quoted (s : string) : string := dquote +:+ s +:+ dquote.

Fixpoint join (sep : string) (parts : list string) : string :=
  match parts with
  | [] => EmptyString
  | [p] => p
  | p :: rest => p +:+ sep +:+ join sep rest
  end.

(** [View().WriteCompact()]: no whitespace, members in insertion order. *)
Fixpoint WriteCompact (v : JsonValue) : string :=
  match v with
  | JInteger n => pretty n
  | JString s => quoted s
  | JArray items => "[" +:+ join "," (List.map WriteCompact items) +:+ "]"
  | JObject members =>
      "{" +:+ join "," (List.map (fun m => quoted (fst m) +:+ ":" +:+ WriteCompact (snd m))
                                 members) +:+ "}"
  end.

(** The empty-object blob returned for an unknown chunk id. *)
Definition EMPTY_BLOB : string := "{}".

(** ** WorldChunk *)

Module WorldChunk.

Record t : Type := mk {
  chunkX : Z;
  chunkZ : Z;
  blocks : list Z;
  lastModified : Z
}.

(** Number of cells of a chunk: [CHUNK_SIZE * CHUNK_SIZE * 256]. *)
Definition VOLUME : Z := CHUNK_SIZE * CHUNK_SIZE * 256.

(** The constructor: all cells zero, never modified. *)
Definition new (x z : Z) : t :=
  {| chunkX := x; chunkZ := z;
     blocks := replicate (Z.to_nat VOLUME) 0;
     lastModified := 0 |}.

Definition getChunkId (c : t) : string :=
  pretty (chunkX c) +:+ ":" +:+ pretty (chunkZ c).

(** The guard shared by [setBlock] and [getBlock]. *)
Definition out_of_range (x y z : Z) : bool :=
  (x <? 0) || (x >=? CHUNK_SIZE) || (y <? 0) || (y >=? 256)
  || (z <? 0) || (z >=? CHUNK_SIZE).

Definition index (x y z : Z) : Z :=
  (y * CHUNK_SIZE * CHUNK_SIZE) + (z * CHUNK_SIZE) + x.

Definition setBlock (now : Z) (c : t) (x y z blockType : Z) : t :=
  if out_of_range x y z then c
  else {| chunkX := chunkX c; chunkZ := chunkZ c;
          blocks := <[Z.to_nat (index x y z) := blockType]> (blocks c);
          lastModified := now |}.

(** Past the guard the index is below [VOLUME], inside the vector the
    constructor sized. *)
Definition getBlock (c : t) (x y z : Z) : Z :=
  if out_of_range x y z then 0
  else blocks c !!! Z.to_nat (index x y z).

Definition getBlocks (c : t) : list Z := blocks c.
Definition getLastModified (c : t) : Z := lastModified c.

(** The loop of [serialize] over [blocks[1..]]: [compressed] grows at its
    end, [count] is an [int]. *)
Fixpoint rle_loop (rest : list Z) (currentBlock count : Z)
         (compressed : list (Z * Z)) : list (Z * Z) :=
  match rest with
  | [] => compressed ++ [(currentBlock, count)]
  | b :: rest' =>
      if b =? currentBlock
      then rle_loop rest' currentBlock (wrap32 (count + 1)) compressed
      else rle_loop rest' b 1 (compressed ++ [(currentBlock, count)])
  end.

(** The run-length encoding; reading [blocks[0]] of an empty vector has
    no defined result. *)
Definition compress (bs : list Z) : option (list (Z * Z)) :=
  match bs with
  | [] => None
  | b0 :: rest => Some (rle_loop rest b0 1 [])
  end.

Definition entry_json (e : Z * Z) : JsonValue :=
  JObject [("type", JInteger (fst e)); ("count", JInteger (snd e))].

(** The JSON object [serialize] builds before writing it out. *)
Definition serialize_json (c : t) : option JsonValue :=
  compressed ← compress (blocks c);
  Some (JObject [("chunkId", JString (getChunkId c));
                 ("blocks", JArray (List.map entry_json compressed));
                 ("lastModified", JInteger (lastModified c))]).

Definition serialize (c : t) : option string :=
  WriteCompact <$> serialize_json c.

(** The vector is sized once by the constructor and never resized. *)
Definition wf (c : t) : Prop := Z.of_nat (length (blocks c)) = VOLUME.

End WorldChunk.

(** ** Reading a chunk blob back *)

Fixpoint json_member (key : string) (members : list (string * JsonValue))
  : option JsonValue :=
  match members with
  | [] => None
  | (k, v) :: rest => if String.eqb k key then Some v else json_member key rest
  end.

Definition json_entry (v : JsonValue) : option (Z * Z) :=
  match v with
  | JObject members =>
      match json_member "type" members, json_member "count" members with
      | Some (JInteger ty), Some (JInteger n) => Some (ty, n)
      | _, _ => None
      end
  | _ => None
  end.

(** The [blocks] array of a chunk object, as [(type, count)] pairs. *)
Definition json_blocks (v : JsonValue) : option (list (Z * Z)) :=
  match v with
  | JObject members =>
      match json_member "blocks" members with
      | Some (JArray items) => mapM json_entry items
      | _ => None
      end
  | _ => None
  end.

(** Decoding: [count] copies of each [type], in array order. *)
Definition rle_decode (entries : list (Z * Z)) : list Z :=
  flat_map (fun e => replicate (Z.to_nat (snd e)) (fst e)) entries.

Fixpoint adjacent_distinct (entries : list (Z * Z)) : bool :=
  match entries with
  | e1 :: (e2 :: _) as rest => negb (fst e1 =? fst e2) && adjacent_distinct rest
  | _ => true
  end.

Definition count_sum (entries : list (Z * Z)) : Z :=
  foldr (fun e acc => snd e + acc) 0 entries.

(** ** Player *)

Module Player.

Record t : Type := mk {
  playerId : string;
  playerName : string;
  x : float;
  y : float;
  z : float;
  health : Z;
  level : Z;
  isConnected : bool;
  lastActivity : Z;
  unlockedAreas : gset string;
  learnedAstras : gset string;
  learnedSiddhis : gset string;
  hasBrahmaKavacha : bool
}.

(** The constructor together with the default member initializers. *)
Definition new (id name : string) (now : Z) : t :=
  {| playerId := id; playerName := name;
     x := inject_Z 0; y := inject_Z 100; z := inject_Z 0;
     health := 100;
     level := 1;
     isConnected := true;
     lastActivity := now;
     unlockedAreas := {["starting_area"]};
     learnedAstras := ∅;
     learnedSiddhis := ∅;
     hasBrahmaKavacha := false |}.

Definition getPlayerId (p : t) : string := playerId p.
Definition getPlayerName (p : t) : string := playerName p.

Definition setPosition (now : Z) (p : t) (newX newY newZ : float) : t :=
  {| playerId := playerId p; playerName := playerName p;
     x := newX; y := newY; z := newZ;
     health := health p; level := level p; isConnected := isConnected p;
     lastActivity := now;
     unlockedAreas := unlockedAreas p; learnedAstras := learnedAstras p;
     learnedSiddhis := learnedSiddhis p;
     hasBrahmaKavacha := hasBrahmaKavacha p |}.

Definition getPosition (p : t) : float * float * float := (x p, y p, z p).

Definition setHealth (p : t) (newHealth : Z) : t :=
  {| playerId := playerId p; playerName := playerName p;
     x := x p; y := y p; z := z p;
     health := Z.max 0 (Z.min 100 newHealth);
     level := level p; isConnected := isConnected p;
     lastActivity := lastActivity p;
     unlockedAreas := unlockedAreas p; learnedAstras := learnedAstras p;
     learnedSiddhis := learnedSiddhis p;
     hasBrahmaKavacha := hasBrahmaKavacha p |}.

Definition getHealth (p : t) : Z := health p.

Definition setConnected (now : Z) (p : t) (connected : bool) : t :=
  {| playerId := playerId p; playerName := playerName p;
     x := x p; y := y p; z := z p;
     health := health p; level := level p; isConnected := connected;
     lastActivity := if connected then now else lastActivity p;
     unlockedAreas := unlockedAreas p; learnedAstras := learnedAstras p;
     learnedSiddhis := learnedSiddhis p;
     hasBrahmaKavacha := hasBrahmaKavacha p |}.

Definition isPlayerConnected (p : t) : bool := isConnected p.
Definition getLastActivity (p : t) : Z := lastActivity p.
Definition getLevel (p : t) : Z := level p.

End Player.

(** ** GameWorld *)

Module GameWorld.

Record t : Type := mk {
  worldId : string;
  chunks : gmap string WorldChunk.t
}.

Definition new (id : string) : t := {| worldId := id; chunks := ∅ |}.

Definition chunk_key (chunkX chunkZ : Z) : string :=
  pretty chunkX +:+ ":" +:+ pretty chunkZ.

(** [getChunk]: the handle of the chunk at [(chunkX, chunkZ)], which is
    created and stored first when the map has none. *)
Definition getChunk (w : t) (chunkX chunkZ : Z) : string * t :=
  let chunkId := chunk_key chunkX chunkZ in
  match chunks w !! chunkId with
  | None =>
      (chunkId,
       {| worldId := worldId w;
          chunks := <[chunkId := WorldChunk.new chunkX chunkZ]> (chunks w) |})
  | Some _ => (chunkId, w)
  end.

(** [std::floor(static_cast<float>(x) / CHUNK_SIZE)] converted to [int].
    Dividing a finite float by 16 only lowers its exponent, and the floor
    of the quotient is again a float, so after the conversion of [x]
    nothing is rounded. *)
Definition chunk_coord (x : Z) : Z :=
  Qfloor (float_of_int x / inject_Z CHUNK_SIZE)%Q.

(** [x - (chunkX * CHUNK_SIZE)] in [int] arithmetic. *)
Definition local_coord (x chunkX : Z) : Z :=
  wrap32 (x - wrap32 (chunkX * CHUNK_SIZE)).

(** A write through the pointer [getChunk] returned. *)
Definition with_chunk (f : WorldChunk.t → WorldChunk.t) (chunkId : string)
           (w : t) : t :=
  {| worldId := worldId w; chunks := alter f chunkId (chunks w) |}.

Definition setBlock (now : Z) (w : t) (x y z blockType : Z) : t :=
  let chunkX := chunk_coord x in
  let chunkZ := chunk_coord z in
  let localX := local_coord x chunkX in
  let localZ := local_coord z chunkZ in
  let '(chunk, w') := getChunk w chunkX chunkZ in
  with_chunk (fun c => WorldChunk.setBlock now c localX y localZ blockType)
             chunk w'.

(** A read through the pointer [getChunk] returned; the chunk is in the map
    by then, and the map may have grown. *)
Definition getBlock (w : t) (x y z : Z) : Z * t :=
  let chunkX := chunk_coord x in
  let chunkZ := chunk_coord z in
  let localX := local_coord x chunkX in
  let localZ := local_coord z chunkZ in
  let '(chunk, w') := getChunk w chunkX chunkZ in
  (from_option (fun c => WorldChunk.getBlock c localX y localZ) 0
               (chunks w' !! chunk),
   w').

(** Ids of the chunks modified after [since], in the iteration order of
    the map. *)
Definition getModifiedChunks (w : t) (since : Z) : list string :=
  (filter (fun kv => since <? WorldChunk.getLastModified (snd kv))
          (map_to_list (chunks w))).*1.

Definition serializeChunk (w : t) (chunkId : string) : option string :=
  match chunks w !! chunkId with
  | Some c => WorldChunk.serialize c
  | None => Some EMPTY_BLOB
  end.

End GameWorld.

(** ** GameSession *)

Module GameSession.

Record t : Type := mk {
  sessionId : string;
  gameMode : string;
  world : GameWorld.t;
  players : gmap string Player.t;
  startTime : Z
}.

Definition new (id mode : string) (now : Z) : t :=
  {| sessionId := id; gameMode := mode;
     world := GameWorld.new id;
     players := ∅;
     startTime := now |}.

Definition getSessionId (s : t) : string := sessionId s.

Definition with_players (s : t) (ps : gmap string Player.t) : t :=
  {| sessionId := sessionId s; gameMode := gameMode s; world := world s;
     players := ps; startTime := startTime s |}.

Definition addPlayer (now : Z) (s : t) (playerId playerName : string)
  : bool * t :=
  if Z.of_nat (size (players s)) >=? MAX_PLAYERS then (false, s)
  else
    let player := Player.new playerId playerName now in
    (true, with_players s (<[playerId := player]> (players s))).

Definition removePlayer (s : t) (playerId : string) : t :=
  match players s !! playerId with
  | Some _ => with_players s (delete playerId (players s))
  | None => s
  end.

(** The player behind the returned pointer, [None] for [nullptr]. *)
Definition getPlayer (s : t) (playerId : string) : option Player.t :=
  players s !! playerId.

Definition getPlayerCount (s : t) : nat := size (players s).

Definition getPlayerIds (s : t) : list string := (map_to_list (players s)).*1.

Definition getWorld (s : t) : GameWorld.t := world s.

(** The scan of [update]: ids whose last activity is more than 300
    seconds before [now]. *)
Definition inactivePlayers (now : Z) (s : t) : list string :=
  (filter (fun kv => now - Player.getLastActivity (snd kv) >? 300)
          (map_to_list (players s))).*1.

Definition update (now : Z) (s : t) : t :=
  foldl removePlayer s (inactivePlayers now s).

End GameSession.

(** ** GameLift callbacks and the process-wide session slot *)

Module Lifecycle.

(** The two calls the callbacks make into the GameLift server SDK. *)
Inductive signal : Type :=
| ActivateGameSession
| ProcessEnding.

(** [Aws::GameLift::Server::Model::GameSession], as far as it is read. *)
Record descriptor : Type := mk_descriptor {
  GameSessionId : string;
  GameProperties : list (string * string)
}.

(** [g_gameSession] and the SDK calls issued so far, oldest first. *)
Record process : Type := mk_process {
  g_gameSession : option GameSession.t;
  emitted : list signal
}.

Definition idle : process := {| g_gameSession := None; emitted := [] |}.

(** The scan of the game properties: every property keyed ["gameMode"]
    overwrites the mode. *)
Definition scan_gameMode (props : list (string * string)) (init : string)
  : string :=
  foldl (fun gameMode prop =>
           if String.eqb (fst prop) "gameMode" then snd prop else gameMode)
        init props.

Definition onStartGameSession (now : Z) (st : process) (gameSession : descriptor)
  : bool * process :=
  let sessionId := GameSessionId gameSession in
  let gameMode := scan_gameMode (GameProperties gameSession) "standard" in
  (true,
   {| g_gameSession := Some (GameSession.new sessionId gameMode now);
      emitted := emitted st ++ [ActivateGameSession] |}).

Definition onProcessTerminate (st : process) : bool * process :=
  (true, {| g_gameSession := None; emitted := emitted st ++ [ProcessEnding] |}).

Definition onHealthCheck (st : process) : bool := true.

(** The body of one iteration of [gameLoop], after the wait. *)
Definition tick (now : Z) (st : process) : process :=
  {| g_gameSession := GameSession.update now <$> g_gameSession st;
     emitted := emitted st |}.

End Lifecycle.

(** ** Predicates and functions used to state the properties *)

(** The cells of a chunk: local coordinates inside the block array. *)
Definition in_range (x y z : Z) : Prop :=
  0 ≤ x < CHUNK_SIZE ∧ 0 ≤ y < 256 ∧ 0 ≤ z < CHUNK_SIZE.

(** The encoder as a function of the remaining cells only: the run in
    progress is emitted when it ends. *)
Fixpoint runs (rest : list Z) (cur count : Z) : list (Z * Z) :=
  match rest with
  | [] => [(cur, count)]
  | b :: rest' =>
      if b =? cur then runs rest' cur (count + 1)
      else (cur, count) :: runs rest' b 1
  end.

(** ** Sessions used by the examples *)

(** One player, ["p1"], joined at time 100. *)
Definition one_player_session : GameSession.t :=
  (GameSession.addPlayer 100 (GameSession.new "S1" "standard" 0) "p1" "Arjuna").2.

(** The same session after ["p1"] was hurt through the [getPlayer]
    pointer: health 10. *)
Definition hurt_player_session : GameSession.t :=
  GameSession.with_players one_player_session
    (alter (fun p => Player.setHealth p 10) "p1"
           (GameSession.players one_player_session)).

(** Sixteen players, ["p0"] to ["p15"], all joined at time 100. *)
Definition full_session : GameSession.t :=
  foldl (fun s i => (GameSession.addPlayer 100 s ("p" +:+ pretty i) "guest").2)
        (GameSession.new "S1" "standard" 0) (seqZ 0 16).

(** Two players: ["idle"] joined at time 1000, ["live"] at time 1002. *)
Definition two_player_session : GameSession.t :=
  let s0 := GameSession.new "S1" "standard" 900 in
  let s1 := (GameSession.addPlayer 1000 s0 "idle" "Karna").2 in
  (GameSession.addPlayer 1002 s1 "live" "Arjuna").2.

(** ** The remaining members of Player *)

Module PlayerMembers.

Definition updateActivity (now : Z) (p : Player.t) : Player.t :=
  {| Player.playerId := Player.playerId p; Player.playerName := Player.playerName p;
     Player.x := Player.x p; Player.y := Player.y p; Player.z := Player.z p;
     Player.health := Player.health p; Player.level := Player.level p;
     Player.isConnected := Player.isConnected p;
     Player.lastActivity := now;
     Player.unlockedAreas := Player.unlockedAreas p;
     Player.learnedAstras := Player.learnedAstras p;
     Player.learnedSiddhis := Player.learnedSiddhis p;
     Player.hasBrahmaKavacha := Player.hasBrahmaKavacha p |}.

Definition addUnlockedArea (p : Player.t) (area : string) : Player.t :=
  {| Player.playerId := Player.playerId p; Player.playerName := Player.playerName p;
     Player.x := Player.x p; Player.y := Player.y p; Player.z := Player.z p;
     Player.health := Player.health p; Player.level := Player.level p;
     Player.isConnected := Player.isConnected p;
     Player.lastActivity := Player.lastActivity p;
     Player.unlockedAreas := {[area]} ∪ Player.unlockedAreas p;
     Player.learnedAstras := Player.learnedAstras p;
     Player.learnedSiddhis := Player.learnedSiddhis p;
     Player.hasBrahmaKavacha := Player.hasBrahmaKavacha p |}.

Definition addLearnedAstra (p : Player.t) (astra : string) : Player.t :=
  {| Player.playerId := Player.playerId p; Player.playerName := Player.playerName p;
     Player.x := Player.x p; Player.y := Player.y p; Player.z := Player.z p;
     Player.health := Player.health p; Player.level := Player.level p;
     Player.isConnected := Player.isConnected p;
     Player.lastActivity := Player.lastActivity p;
     Player.unlockedAreas := Player.unlockedAreas p;
     Player.learnedAstras := {[astra]} ∪ Player.learnedAstras p;
     Player.learnedSiddhis := Player.learnedSiddhis p;
     Player.hasBrahmaKavacha := Player.hasBrahmaKavacha p |}.

Definition addLearnedSiddhi (p : Player.t) (siddhi : string) : Player.t :=
  {| Player.playerId := Player.playerId p; Player.playerName := Player.playerName p;
     Player.x := Player.x p; Player.y := Player.y p; Player.z := Player.z p;
     Player.health := Player.health p; Player.level := Player.level p;
     Player.isConnected := Player.isConnected p;
     Player.lastActivity := Player.lastActivity p;
     Player.unlockedAreas := Player.unlockedAreas p;
     Player.learnedAstras := Player.learnedAstras p;
     Player.learnedSiddhis := {[siddhi]} ∪ Player.learnedSiddhis p;
     Player.hasBrahmaKavacha := Player.hasBrahmaKavacha p |}.

Definition setBrahmaKavacha (p : Player.t) (has : bool) : Player.t :=
  {| Player.playerId := Player.playerId p; Player.playerName := Player.playerName p;
     Player.x := Player.x p; Player.y := Player.y p; Player.z := Player.z p;
     Player.health := Player.health p; Player.level := Player.level p;
     Player.isConnected := Player.isConnected p;
     Player.lastActivity := Player.lastActivity p;
     Player.unlockedAreas := Player.unlockedAreas p;
     Player.learnedAstras := Player.learnedAstras p;
     Player.learnedSiddhis := Player.learnedSiddhis p;
     Player.hasBrahmaKavacha := has |}.

Definition setLevel (p : Player.t) (newLevel : Z) : Player.t :=
  {| Player.playerId := Player.playerId p; Player.playerName := Player.playerName p;
     Player.x := Player.x p; Player.y := Player.y p; Player.z := Player.z p;
     Player.health := Player.health p; Player.level := newLevel;
     Player.isConnected := Player.isConnected p;
     Player.lastActivity := Player.lastActivity p;
     Player.unlockedAreas := Player.unlockedAreas p;
     Player.learnedAstras := Player.learnedAstras p;
     Player.learnedSiddhis := Player.learnedSiddhis p;
     Player.hasBrahmaKavacha := Player.hasBrahmaKavacha p |}.

End PlayerMembers.

(** ** Calls, for statements over sequences of calls *)

(** A call of one of the mutating members of [Player]. *)
Inductive player_call : Type :=
| CallSetPosition (now : Z) (newX newY newZ : float)
| CallSetHealth (newHealth : Z)
| CallSetConnected (now : Z) (connected : bool)
| CallUpdateActivity (now : Z)
| CallAddUnlockedArea (area : string)
| CallAddLearnedAstra (astra : string)
| CallAddLearnedSiddhi (siddhi : string)
| CallSetBrahmaKavacha (has : bool)
| CallSetLevel (newLevel : Z).

Definition player_step (p : Player.t) (c : player_call) : Player.t :=
  match c with
  | CallSetPosition now newX newY newZ => Player.setPosition now p newX newY newZ
  | CallSetHealth newHealth => Player.setHealth p newHealth
  | CallSetConnected now connected => Player.setConnected now p connected
  | CallUpdateActivity now => PlayerMembers.updateActivity now p
  | CallAddUnlockedArea area => PlayerMembers.addUnlockedArea p area
  | CallAddLearnedAstra astra => PlayerMembers.addLearnedAstra p astra
  | CallAddLearnedSiddhi siddhi => PlayerMembers.addLearnedSiddhi p siddhi
  | CallSetBrahmaKavacha has => PlayerMembers.setBrahmaKavacha p has
  | CallSetLevel newLevel => PlayerMembers.setLevel p newLevel
  end.

(** A member called on the player behind the pointer [getPlayer(id)]
    returned; on [nullptr] there is no player to call it on. *)
Definition call_player (s : GameSession.t) (id : string) (c : player_call)
  : GameSession.t :=
  GameSession.with_players s
    (alter (fun p => player_step p c) id (GameSession.players s)).

(** A call that can change the roster of a session or a player in it. *)
Inductive session_call : Type :=
| CallAddPlayer (now : Z) (playerId playerName : string)
| CallRemovePlayer (playerId : string)
| CallUpdate (now : Z)
| CallPlayer (playerId : string) (c : player_call).

Definition session_step (s : GameSession.t) (c : session_call) : GameSession.t :=
  match c with
  | CallAddPlayer now playerId playerName =>
      (GameSession.addPlayer now s playerId playerName).2
  | CallRemovePlayer playerId => GameSession.removePlayer s playerId
  | CallUpdate now => GameSession.update now s
  | CallPlayer playerId c => call_player s playerId c
  end.

(** A block access through a world. *)
Inductive world_call : Type :=
| CallSetBlock (now x y z blockType : Z)
| CallGetBlock (x y z : Z).

Definition world_step (w : GameWorld.t) (c : world_call) : GameWorld.t :=
  match c with
  | CallSetBlock now x y z blockType => GameWorld.setBlock now w x y z blockType
  | CallGetBlock x y z => (GameWorld.getBlock w x y z).2
  end.

(** A write to a chunk: the clock reading, the local coordinates and the
    block type. *)
Record block_write : Type := mk_write {
  w_now : Z;
  w_x : Z;
  w_y : Z;
  w_z : Z;
  w_type : Z
}.

Definition apply_write (c : WorldChunk.t) (w : block_write) : WorldChunk.t :=
  WorldChunk.setBlock (w_now w) c (w_x w) (w_y w) (w_z w) (w_type w).

(** The type of the last write, in list order, aimed at [(x, y, z)]. *)
Definition last_write (ws : list block_write) (x y z : Z) : option Z :=
  foldl (fun found w =>
           if (w_x w =? x) && (w_y w =? y) && (w_z w =? z)
           then Some (w_type w) else found)
        None ws.

(** What the platform and the game loop do to the process. *)
Inductive callback : Type :=
| OnStartGameSession (now : Z) (gameSession : Lifecycle.descriptor)
| OnProcessTerminate
| OnHealthCheck
| Tick (now : Z).

Definition handle (st : Lifecycle.process) (e : callback) : Lifecycle.process :=
  match e with
  | OnStartGameSession now gameSession =>
      (Lifecycle.onStartGameSession now st gameSession).2
  | OnProcessTerminate => (Lifecycle.onProcessTerminate st).2
  | OnHealthCheck => st
  | Tick now => Lifecycle.tick now st
  end.

(** The signal a callback sends to GameLift, if any. *)
Definition signal_of (e : callback) : list Lifecycle.signal :=
  match e with
  | OnStartGameSession _ _ => [Lifecycle.ActivateGameSession]
  | OnProcessTerminate => [Lifecycle.ProcessEnding]
  | OnHealthCheck | Tick _ => []
  end.

(** Whether a session is installed after the callbacks [es], given whether
    one was before: the last start or terminate decides. *)
Definition active_after (before : bool) (es : list callback) : bool :=
  foldl (fun active e =>
           match e with
           | OnStartGameSession _ _ => true
           | OnProcessTerminate => false
           | OnHealthCheck | Tick _ => active
           end)
        before es.

(** ** Invariants *)

(** Strings without a colon: the decimal numerals of chunk ids. *)
Fixpoint colon_free (s : string) : bool :=
  match s with
  | EmptyString => true
  | String a s' => negb (Ascii.eqb a (Ascii.ascii_of_nat 58)) && colon_free s'
  end.

(** Every stored chunk has the full block vector and sits under its own
    id. *)
Definition world_ok (w : GameWorld.t) : Prop :=
  map_Forall (fun id c => WorldChunk.wf c ∧ WorldChunk.getChunkId c = id)
             (GameWorld.chunks w).

(** The roster is within capacity and every player sits under its own
    id. *)
Definition roster_ok (s : GameSession.t) : Prop :=
  Z.of_nat (size (GameSession.players s)) ≤ MAX_PLAYERS
  ∧ map_Forall (fun id p => Player.playerId p = id) (GameSession.players s).

(** The range of a 32-bit [int]. *)
Definition is_int (n : Z) : Prop := - 2 ^ 31 ≤ n < 2 ^ 31.

(** A member of a JSON object, [None] for a missing member or another kind
    of value. *)
Definition json_field (key : string) (v : JsonValue) : option JsonValue :=
  match v with
  | JObject members => json_member key members
  | _ => None
  end.

(** The clock reading a call stores in [lastActivity], for the calls that
    store one. *)
Definition refresh_time (c : player_call) : option Z :=
  match c with
  | CallSetPosition now _ _ _ => Some now
  | CallSetConnected now true => Some now
  | CallUpdateActivity now => Some now
  | _ => None
  end.

(** Whether the process-wide slot holds a session. *)
Definition has_session (st : Lifecycle.process) : bool :=
  match Lifecycle.g_gameSession st with
  | Some _ => true
  | None => false
  end.

(** The callbacks that neither install nor drop a session. *)
Definition keeps_slot (e : callback) : bool :=
  match e with
  | OnHealthCheck | Tick _ => true
  | OnStartGameSession _ _ | OnProcessTerminate => false
  end.

(** * Properties *)

(** ** Machine arithmetic *)

Lemma wrap32_small (n : Z) : - 2 ^ 31 ≤ n < 2 ^ 31 → wrap32 n = n.
Proof.
  intros Hn. unfold wrap32.
  rewrite Z.mod_small by lia. lia.
Qed.

Lemma float_of_int_exact (x : Z) :
  Z.abs x < 2 ^ 24 → float_of_int x = inject_Z x.
Proof.
  intros Hx. unfold float_of_int.
  destruct (Z.ltb_spec (Z.abs x) (2 ^ 24)); [done | lia].
Qed.

(** ** WorldChunk: range guard and shape *)

Section chunk_cells.

Implicit Types (c : WorldChunk.t) (x y z : Z).

Lemma out_of_range_false x y z :
  WorldChunk.out_of_range x y z = false ↔ in_range x y z.
Proof.
  unfold WorldChunk.out_of_range, in_range, CHUNK_SIZE.
  rewrite !orb_false_iff, !Z.ltb_ge, !Z.geb_leb, !Z.leb_gt. lia.
Qed.

Lemma out_of_range_true x y z :
  WorldChunk.out_of_range x y z = true ↔ ¬ in_range x y z.
Proof.
  rewrite <-out_of_range_false. destruct (WorldChunk.out_of_range x y z); naive_solver.
Qed.

Lemma index_bound x y z :
  in_range x y z → 0 ≤ WorldChunk.index x y z < WorldChunk.VOLUME.
Proof.
  unfold in_range, WorldChunk.index, WorldChunk.VOLUME, CHUNK_SIZE. lia.
Qed.

Lemma wf_new cx cz : WorldChunk.wf (WorldChunk.new cx cz).
Proof.
  unfold WorldChunk.wf, WorldChunk.new. cbn [WorldChunk.blocks].
  rewrite length_replicate. unfold WorldChunk.VOLUME, CHUNK_SIZE. lia.
Qed.

Lemma wf_setBlock now c x y z ty :
  WorldChunk.wf c → WorldChunk.wf (WorldChunk.setBlock now c x y z ty).
Proof.
  unfold WorldChunk.wf, WorldChunk.setBlock. intros Hc.
  destruct (WorldChunk.out_of_range x y z); [done |].
  simpl. by rewrite length_insert.
Qed.

Lemma getBlock_setBlock_same now c x y z ty :
  WorldChunk.wf c → in_range x y z →
  WorldChunk.getBlock (WorldChunk.setBlock now c x y z ty) x y z = ty.
Proof.
  intros Hc Hr. unfold WorldChunk.getBlock, WorldChunk.setBlock.
  apply out_of_range_false in Hr as Hg. rewrite Hg. simpl.
  apply list_lookup_total_correct, list_lookup_insert_eq.
  unfold WorldChunk.wf in Hc. apply index_bound in Hr. lia.
Qed.

End chunk_cells.

(** ** Run-length encoding *)

Section rle.

Implicit Types (bs rest : list Z) (cur count : Z) (acc : list (Z * Z)).

Lemma rle_loop_runs rest cur count acc :
  0 ≤ count → count + Z.of_nat (length rest) < 2 ^ 31 →
  WorldChunk.rle_loop rest cur count acc = acc ++ runs rest cur count.
Proof.
  revert cur count acc.
  induction rest as [| b rest IH]; intros cur count acc Hc Hlen; simpl in *.
  - done.
  - destruct (b =? cur).
    + rewrite wrap32_small by lia. apply IH; lia.
    + rewrite IH by lia. by rewrite <-app_assoc.
Qed.

Lemma runs_head rest cur count :
  ∃ n tl, runs rest cur count = (cur, n) :: tl.
Proof.
  revert count. induction rest as [| b rest IH]; intros count; simpl.
  - eauto.
  - destruct (b =? cur); eauto.
Qed.

Lemma runs_decode rest cur count :
  0 ≤ count →
  rle_decode (runs rest cur count) = replicate (Z.to_nat count) cur ++ rest.
Proof.
  revert cur count.
  induction rest as [| b rest IH]; intros cur count Hc; simpl.
  - done.
  - destruct (Z.eqb_spec b cur) as [-> | Hne].
    + rewrite IH by lia.
      replace (Z.to_nat (count + 1)) with (S (Z.to_nat count)) by lia.
      by rewrite replicate_S_end, <-app_assoc.
    + simpl. unfold rle_decode in IH. rewrite IH by lia. done.
Qed.

Lemma runs_count_sum rest cur count :
  count_sum (runs rest cur count) = count + Z.of_nat (length rest).
Proof.
  revert cur count.
  induction rest as [| b rest IH]; intros cur count; simpl.
  - lia.
  - destruct (b =? cur).
    + rewrite IH. lia.
    + simpl. rewrite IH. lia.
Qed.

Lemma runs_adjacent_distinct rest cur count :
  adjacent_distinct (runs rest cur count) = true.
Proof.
  revert cur count.
  induction rest as [| b rest IH]; intros cur count; simpl.
  - done.
  - destruct (Z.eqb_spec b cur) as [-> | Hne]; [apply IH |].
    specialize (IH b 1).
    destruct (runs_head rest b 1) as (n & tl & Hr).
    rewrite Hr in *. simpl in *. rewrite IH, andb_true_r.
    apply negb_true_iff, Z.eqb_neq. congruence.
Qed.

Lemma runs_replicate n cur count :
  runs (replicate n cur) cur count = [(cur, count + Z.of_nat n)].
Proof.
  revert count. induction n as [| n IH]; intros count; simpl.
  - by rewrite Z.add_0_r.
  - rewrite Z.eqb_refl, IH. do 2 f_equal. lia.
Qed.

Lemma compress_runs bs :
  0 < Z.of_nat (length bs) < 2 ^ 31 →
  ∃ b0 rest, bs = b0 :: rest ∧ WorldChunk.compress bs = Some (runs rest b0 1).
Proof.
  intros Hlen. destruct bs as [| b0 rest]; simpl in *; [lia |].
  exists b0, rest. split; [done |].
  by rewrite rle_loop_runs by lia.
Qed.

Lemma Forall_zero_replicate bs :
  Forall (λ b, b = 0) bs → bs = replicate (length bs) 0.
Proof. induction 1 as [| b bs -> _ IH]; simpl; congruence. Qed.

Lemma compress_zeros bs :
  0 < Z.of_nat (length bs) < 2 ^ 31 → Forall (λ b, b = 0) bs →
  WorldChunk.compress bs = Some [(0, Z.of_nat (length bs))].
Proof.
  intros Hlen Hz.
  destruct (compress_runs bs Hlen) as (b0 & rest & -> & ->).
  apply Forall_cons in Hz as [-> Hz].
  rewrite (Forall_zero_replicate rest Hz) at 1. rewrite runs_replicate.
  simpl length. do 3 f_equal. lia.
Qed.

Lemma json_entry_of e : json_entry (WorldChunk.entry_json e) = Some e.
Proof. by destruct e. Qed.

Lemma json_blocks_serialize c entries :
  WorldChunk.compress (WorldChunk.blocks c) = Some entries →
  ∃ v, WorldChunk.serialize_json c = Some v ∧ json_blocks v = Some entries.
Proof.
  intros Hc. unfold WorldChunk.serialize_json. rewrite Hc. simpl.
  eexists; split; [done |]. simpl.
  apply mapM_Some, Forall2_fmap_l, Forall_Forall2_diag, Forall_forall.
  intros e _. apply json_entry_of.
Qed.

End rle.

(** ** WorldChunk: the serialized block array *)

Section chunk_serialize.

Implicit Types (c : WorldChunk.t).

Lemma wf_length c :
  WorldChunk.wf c → Z.of_nat (length (WorldChunk.blocks c)) = 65536.
Proof. unfold WorldChunk.wf. intros ->. reflexivity. Qed.

Lemma serialize_entries c :
  WorldChunk.wf c →
  ∃ b0 rest v,
    WorldChunk.blocks c = b0 :: rest
    ∧ WorldChunk.serialize_json c = Some v
    ∧ WorldChunk.serialize c = Some (WriteCompact v)
    ∧ json_blocks v = Some (runs rest b0 1).
Proof.
  intros Hlen%wf_length.
  destruct (compress_runs (WorldChunk.blocks c)) as (b0 & rest & Hbs & Hc); [lia |].
  destruct (json_blocks_serialize c _ Hc) as (v & Hv & Hb).
  exists b0, rest, v. unfold WorldChunk.serialize. rewrite Hv. done.
Qed.

(** C3. For every chunk, the [blocks] array of [serialize()] decodes, by
    writing [count] copies of each [type] in array order, to exactly the
    65536 stored cells, and the cell of local coordinate [(x, y, z)] sits at
    position [y * CHUNK_SIZE^2 + z * CHUNK_SIZE + x] of the decoded
    sequence. *)
Theorem serialize_rle_roundtrip c :
  WorldChunk.wf c →
  ∃ v entries,
    WorldChunk.serialize_json c = Some v
    ∧ WorldChunk.serialize c = Some (WriteCompact v)
    ∧ json_blocks v = Some entries
    ∧ rle_decode entries = WorldChunk.blocks c
    ∧ Z.of_nat (length (rle_decode entries)) = 65536
    ∧ ∀ x y z, in_range x y z →
        rle_decode entries !! Z.to_nat (y * CHUNK_SIZE ^ 2 + z * CHUNK_SIZE + x)
        = Some (WorldChunk.getBlock c x y z).
Proof.
  intros Hwf.
  destruct (serialize_entries c Hwf) as (b0 & rest & v & Hbs & Hv & Hs & Hb).
  assert (Hdec : rle_decode (runs rest b0 1) = WorldChunk.blocks c).
  { rewrite runs_decode by lia. by rewrite Hbs. }
  exists v, (runs rest b0 1). rewrite Hdec.
  split_and!; [done | done | done | done | by apply wf_length |].
  intros x y z Hr. unfold WorldChunk.getBlock.
  rewrite (proj2 (out_of_range_false x y z) Hr).
  replace (y * CHUNK_SIZE ^ 2 + z * CHUNK_SIZE + x) with (WorldChunk.index x y z)
    by (unfold WorldChunk.index, CHUNK_SIZE; lia).
  apply list_lookup_lookup_total_lt.
  apply index_bound in Hr. unfold WorldChunk.wf in Hwf. lia.
Qed.

Lemma serialize_rle_roundtrip_witness :
  let c := WorldChunk.setBlock 9 (WorldChunk.new 0 0) 0 0 0 7 in
  ∃ v entries,
    WorldChunk.serialize_json c = Some v
    ∧ WorldChunk.serialize c = Some (WriteCompact v)
    ∧ json_blocks v = Some entries
    ∧ rle_decode entries = WorldChunk.blocks c
    ∧ Z.of_nat (length (rle_decode entries)) = 65536
    ∧ ∀ x y z, in_range x y z →
        rle_decode entries !! Z.to_nat (y * CHUNK_SIZE ^ 2 + z * CHUNK_SIZE + x)
        = Some (WorldChunk.getBlock c x y z).
Proof.
  apply (serialize_rle_roundtrip (WorldChunk.setBlock 9 (WorldChunk.new 0 0) 0 0 0 7)).
  vm_compute. reflexivity.
Defined.

(** C4. For every chunk, the [blocks] array of [serialize()] has no two
    adjacent entries of the same [type] and its counts add up to 65536; for
    an all-zero chunk it is the single entry [{type:0, count:65536}]. *)
Theorem serialize_rle_compact c :
  WorldChunk.wf c →
  ∃ v entries,
    WorldChunk.serialize_json c = Some v
    ∧ json_blocks v = Some entries
    ∧ adjacent_distinct entries = true
    ∧ count_sum entries = 65536
    ∧ (Forall (λ b, b = 0) (WorldChunk.blocks c) → entries = [(0, 65536)]).
Proof.
  intros Hwf.
  destruct (serialize_entries c Hwf) as (b0 & rest & v & Hbs & Hv & _ & Hb).
  apply wf_length in Hwf. rewrite Hbs in Hwf. simpl length in Hwf.
  exists v, (runs rest b0 1). split_and!; [done | done | | |].
  - apply runs_adjacent_distinct.
  - rewrite runs_count_sum. lia.
  - intros Hz. pose proof (compress_zeros (WorldChunk.blocks c)) as Hc.
    unfold WorldChunk.serialize_json in Hv. rewrite Hbs in Hc, Hv.
    simpl length in Hc. rewrite Hc in Hv by (by rewrite <-?Hbs || lia).
    injection Hv as <-. simpl in Hb. injection Hb as <-.
    do 2 f_equal. lia.
Qed.

Lemma serialize_rle_compact_witness :
  ∃ v entries,
    WorldChunk.serialize_json (WorldChunk.new 3 (-2)) = Some v
    ∧ json_blocks v = Some entries
    ∧ adjacent_distinct entries = true
    ∧ count_sum entries = 65536
    ∧ entries = [(0, 65536)].
Proof.
  destruct (serialize_rle_compact (WorldChunk.new 3 (-2))) as (v & entries & H1 & H2 & H3 & H4 & H5).
  - vm_compute. reflexivity.
  - exists v, entries. repeat split; try assumption.
    apply H5. apply Forall_replicate. reflexivity.
Defined.

(** C6. For every chunk and every local coordinate outside
    [0 <= x, z < 16], [0 <= y < 256]: [setBlock] returns the chunk as it
    was, block array and [lastModified] included, and [getBlock] returns
    0. *)
Theorem chunk_out_of_range_ignored (now : Z) c (x y z blockType : Z) :
  ¬ (0 ≤ x < 16 ∧ 0 ≤ y < 256 ∧ 0 ≤ z < 16) →
  WorldChunk.setBlock now c x y z blockType = c
  ∧ WorldChunk.blocks (WorldChunk.setBlock now c x y z blockType) = WorldChunk.blocks c
  ∧ WorldChunk.lastModified (WorldChunk.setBlock now c x y z blockType)
    = WorldChunk.lastModified c
  ∧ WorldChunk.getBlock c x y z = 0.
Proof.
  intros Hout.
  assert (Hg : WorldChunk.out_of_range x y z = true) by by apply out_of_range_true.
  unfold WorldChunk.setBlock, WorldChunk.getBlock. by rewrite Hg.
Qed.

Lemma chunk_out_of_range_ignored_witness :
  let c := WorldChunk.setBlock 5 (WorldChunk.new 0 0) 1 2 3 4 in
  WorldChunk.setBlock 9 c 16 0 (-1) 7 = c
  ∧ WorldChunk.blocks (WorldChunk.setBlock 9 c 16 0 (-1) 7) = WorldChunk.blocks c
  ∧ WorldChunk.lastModified (WorldChunk.setBlock 9 c 16 0 (-1) 7)
    = WorldChunk.lastModified c
  ∧ WorldChunk.getBlock c 16 0 (-1) = 0.
Proof.
  apply (chunk_out_of_range_ignored 9 (WorldChunk.setBlock 5 (WorldChunk.new 0 0) 1 2 3 4)
           16 0 (-1) 7).
  lia.
Defined.

End chunk_serialize.

(** ** Player *)

(** C8. For every player and every sequence of [setHealth] calls with
    arbitrary arguments, the health after the last call of the sequence is
    the last argument clamped to [0, 100]; every call ends some such
    sequence, so the health lies in [0, 100] after every call. *)
Theorem setHealth_clamped (p : Player.t) (earlier : list Z) (h : Z) :
  let p' := foldl Player.setHealth p (earlier ++ [h]) in
  0 ≤ Player.getHealth p' ≤ 100
  ∧ Player.getHealth p' = Z.max 0 (Z.min 100 h)
  ∧ (0 ≤ h ≤ 100 → Player.getHealth p' = h)
  ∧ (h < 0 → Player.getHealth p' = 0)
  ∧ (100 < h → Player.getHealth p' = 100).
Proof.
  intros p'. subst p'. rewrite foldl_app. simpl.
  unfold Player.getHealth, Player.setHealth. simpl. lia.
Qed.

Lemma setHealth_clamped_witness :
  let p' := foldl Player.setHealth (Player.new "p1" "Arjuna" 0) [250; -3; 42] in
  0 ≤ Player.getHealth p' ≤ 100 ∧ Player.getHealth p' = 42.
Proof.
  destruct (setHealth_clamped (Player.new "p1" "Arjuna" 0) [250; -3] 42)
    as (Hrange & _ & Hin & _).
  split; [exact Hrange | apply Hin; lia].
Defined.

(** ** GameSession: the roster *)

Section roster.

Implicit Types (s : GameSession.t) (id name : string) (p : Player.t).

Lemma addPlayer_full now s id name :
  MAX_PLAYERS ≤ Z.of_nat (size (GameSession.players s)) →
  GameSession.addPlayer now s id name = (false, s).
Proof.
  intros Hfull. unfold GameSession.addPlayer.
  destruct (Z.geb_spec (Z.of_nat (size (GameSession.players s))) MAX_PLAYERS); [done | lia].
Qed.

Lemma addPlayer_room now s id name :
  Z.of_nat (size (GameSession.players s)) < MAX_PLAYERS →
  GameSession.addPlayer now s id name
  = (true, GameSession.with_players s
             (<[id := Player.new id name now]> (GameSession.players s))).
Proof.
  intros Hroom. unfold GameSession.addPlayer.
  destruct (Z.geb_spec (Z.of_nat (size (GameSession.players s))) MAX_PLAYERS); [lia | done].
Qed.

Lemma size_insert_Some (m : gmap string Player.t) id p old :
  m !! id = Some old → size (<[id := p]> m) = size m.
Proof.
  intros Hold.
  rewrite <-(insert_delete_id m id old Hold) at 2.
  rewrite <-insert_delete_eq.
  rewrite !map_size_insert_None by apply lookup_delete_eq. done.
Qed.

(** C1, as stated, fails: with ["p1"] already in a roster of one,
    [addPlayer("p1", ...)] returns true and the roster still has one
    player. *)
Lemma addPlayer_true_without_growth :
  let s := one_player_session in
  let r := GameSession.addPlayer 200 s "p1" "Arjuna" in
  Z.of_nat (size (GameSession.players s)) < MAX_PLAYERS
  ∧ r.1 = true
  ∧ size (GameSession.players r.2) = size (GameSession.players s)
  ∧ size (GameSession.players r.2) ≠ S (size (GameSession.players s)).
Proof. vm_compute. split_and!; congruence. Qed.

(** C1, amended. For every session and every call [addPlayer(id, name)]:
    with 16 or more players in the roster the call returns false and the
    session is unchanged; otherwise it returns true and stores a freshly
    constructed player under [id], so that the roster grows by one when
    [id] was not in it and keeps its size when it was; a roster of at most
    16 players has at most 16 players afterwards. *)
Theorem addPlayer_capacity now s id name :
  let r := GameSession.addPlayer now s id name in
  (MAX_PLAYERS ≤ Z.of_nat (size (GameSession.players s)) → r = (false, s))
  ∧ (Z.of_nat (size (GameSession.players s)) < MAX_PLAYERS →
       r.1 = true
       ∧ GameSession.players r.2
         = <[id := Player.new id name now]> (GameSession.players s)
       ∧ (GameSession.players s !! id = None →
            size (GameSession.players r.2) = S (size (GameSession.players s)))
       ∧ (is_Some (GameSession.players s !! id) →
            size (GameSession.players r.2) = size (GameSession.players s)))
  ∧ (r.1 = true ↔ Z.of_nat (size (GameSession.players s)) < MAX_PLAYERS)
  ∧ (Z.of_nat (size (GameSession.players s)) ≤ MAX_PLAYERS →
       Z.of_nat (size (GameSession.players r.2)) ≤ MAX_PLAYERS).
Proof.
  intros r. subst r.
  destruct (Z.le_gt_cases MAX_PLAYERS (Z.of_nat (size (GameSession.players s))))
    as [Hfull | Hroom].
  - rewrite addPlayer_full by done. simpl.
    split; [done |]. split; [lia |]. split; [split; [done | lia] | done].
  - rewrite addPlayer_room by done. simpl.
    assert (Hnew : GameSession.players s !! id = None →
                   size (<[id := Player.new id name now]> (GameSession.players s))
                   = S (size (GameSession.players s)))
      by (intros; by apply map_size_insert_None).
    assert (Hold : is_Some (GameSession.players s !! id) →
                   size (<[id := Player.new id name now]> (GameSession.players s))
                   = size (GameSession.players s))
      by (intros [old ?]; by eapply size_insert_Some).
    split; [lia |]. split; [done |]. split; [done |].
    intros _. destruct (GameSession.players s !! id) eqn:Hid.
    + rewrite Hold by eauto. lia.
    + rewrite Hnew by done. lia.
Qed.

Lemma addPlayer_capacity_witness :
  let r := GameSession.addPlayer 200 one_player_session "p2" "Bhima" in
  (r.1 = true
   ∧ size (GameSession.players r.2) = 2%nat
   ∧ Z.of_nat (size (GameSession.players r.2)) ≤ MAX_PLAYERS)
  ∧ GameSession.addPlayer 300 full_session "late" "Drona" = (false, full_session).
Proof.
  destruct (addPlayer_capacity 200 one_player_session "p2" "Bhima")
    as (_ & Hroom & _ & Hcap).
  destruct Hroom as (Hok & _ & Hnew & _); [vm_compute; reflexivity |].
  destruct (addPlayer_capacity 300 full_session "late" "Drona") as (Hfull & _).
  split; [split_and! |].
  - exact Hok.
  - rewrite Hnew; [vm_compute; reflexivity | vm_compute; reflexivity].
  - apply Hcap. vm_compute. discriminate.
  - apply Hfull. vm_compute. discriminate.
Defined.

(** C9. For every session with fewer than 16 players whose roster already
    holds [id], [addPlayer(id, name)] returns true and the roster then maps
    [id] to a freshly constructed player: position (0, 100, 0), health 100,
    level 1, connected, ["starting_area"] the only unlocked area, nothing
    learned; the roster size and the other players are unchanged. *)
Theorem addPlayer_existing_replaced now s id name old :
  Z.of_nat (size (GameSession.players s)) < MAX_PLAYERS →
  GameSession.players s !! id = Some old →
  let r := GameSession.addPlayer now s id name in
  r.1 = true
  ∧ size (GameSession.players r.2) = size (GameSession.players s)
  ∧ (∀ other, other ≠ id →
       GameSession.getPlayer r.2 other = GameSession.getPlayer s other)
  ∧ ∃ p, GameSession.getPlayer r.2 id = Some p
      ∧ p = Player.new id name now
      ∧ Player.getPlayerId p = id ∧ Player.getPlayerName p = name
      ∧ Player.getPosition p = (inject_Z 0, inject_Z 100, inject_Z 0)
      ∧ Player.getHealth p = 100
      ∧ Player.getLevel p = 1
      ∧ Player.isPlayerConnected p = true
      ∧ Player.getLastActivity p = now
      ∧ Player.unlockedAreas p = {["starting_area"]}
      ∧ Player.learnedAstras p = ∅
      ∧ Player.learnedSiddhis p = ∅
      ∧ Player.hasBrahmaKavacha p = false.
Proof.
  intros Hroom Hold r. subst r. rewrite addPlayer_room by done.
  unfold GameSession.getPlayer. simpl. split_and!.
  - done.
  - by eapply size_insert_Some.
  - intros other Hne. by rewrite lookup_insert_ne.
  - exists (Player.new id name now). rewrite lookup_insert_eq. done.
Qed.

Lemma addPlayer_existing_replaced_witness :
  let r := GameSession.addPlayer 200 hurt_player_session "p1" "Arjuna" in
  GameSession.getPlayer hurt_player_session "p1"
  = Some (Player.setHealth (Player.new "p1" "Arjuna" 100) 10)
  ∧ r.1 = true
  ∧ size (GameSession.players r.2) = size (GameSession.players hurt_player_session)
  ∧ GameSession.getPlayer r.2 "p1" = Some (Player.new "p1" "Arjuna" 200).
Proof.
  assert (Hold : GameSession.players hurt_player_session !! "p1"
                 = Some (Player.setHealth (Player.new "p1" "Arjuna" 100) 10))
    by (vm_compute; reflexivity).
  destruct (addPlayer_existing_replaced 200 hurt_player_session "p1" "Arjuna" _
              ltac:(vm_compute; reflexivity) Hold)
    as (Hok & Hsize & _ & p & Hp & -> & _).
  split_and!; [exact Hold | exact Hok | exact Hsize | exact Hp].
Defined.

End roster.

(** ** GameSession: idle eviction *)

Section eviction.

Implicit Types (s : GameSession.t) (id : string) (p : Player.t).

Lemma removePlayer_players s id :
  GameSession.players (GameSession.removePlayer s id)
  = delete id (GameSession.players s).
Proof.
  unfold GameSession.removePlayer.
  destruct (GameSession.players s !! id) eqn:Hid; simpl; [done |].
  by rewrite delete_id.
Qed.

Lemma removePlayers_lookup (ids : list string) s id :
  GameSession.players (foldl GameSession.removePlayer s ids) !! id
  = if decide (id ∈ ids) then None else GameSession.players s !! id.
Proof.
  revert s. induction ids as [| j ids IH]; intros s.
  - rewrite decide_False; [done | apply not_elem_of_nil].
  - cbn [foldl]. rewrite IH, removePlayer_players.
    destruct (decide (id ∈ ids)) as [Hin | Hnin].
    + rewrite decide_True; [done | apply elem_of_cons; by right].
    + destruct (decide (id = j)) as [-> | Hne].
      * rewrite decide_True; [apply lookup_delete_eq | apply elem_of_cons; by left].
      * rewrite decide_False; [by apply lookup_delete_ne |].
        by intros [? | ?]%elem_of_cons.
Qed.

Lemma elem_of_inactivePlayers now s id :
  id ∈ GameSession.inactivePlayers now s
  ↔ ∃ p, GameSession.players s !! id = Some p ∧ 300 < now - Player.lastActivity p.
Proof.
  unfold GameSession.inactivePlayers, Player.getLastActivity.
  rewrite list_elem_of_fmap. split.
  - intros ([j p] & -> & [Hidle Hp%elem_of_map_to_list]%list_elem_of_filter).
    simpl in *. exists p. split; [done |].
    apply Is_true_true in Hidle. lia.
  - intros (p & Hp & Hidle). exists (id, p). split; [done |].
    apply list_elem_of_filter. split; [| by apply elem_of_map_to_list].
    simpl. apply Is_true_true. lia.
Qed.

(** What [update] leaves of the roster. *)
Lemma update_lookup now s id :
  GameSession.getPlayer (GameSession.update now s) id
  = p ← GameSession.players s !! id;
    if decide (300 < now - Player.lastActivity p) then None else Some p.
Proof.
  unfold GameSession.getPlayer, GameSession.update.
  rewrite removePlayers_lookup.
  destruct (GameSession.players s !! id) as [p |] eqn:Hp; simpl.
  - destruct (decide (300 < now - Player.lastActivity p)) as [Hidle | Hlive].
    + rewrite decide_True; [done |]. apply elem_of_inactivePlayers. eauto.
    + rewrite decide_False; [done |].
      intros (q & Hq & Hidle)%elem_of_inactivePlayers. naive_solver.
  - by destruct (decide _).
Qed.

(** C5. For every session and time [now] at which [update()] runs: a
    player whose last activity is more than 300 seconds before [now] is not
    in the roster afterwards; a player whose last activity is at most 299
    seconds before [now] is still there, unchanged. *)
Theorem update_evicts_idle now s id p :
  GameSession.getPlayer s id = Some p →
  (now - Player.getLastActivity p > 300 →
     GameSession.getPlayer (GameSession.update now s) id = None)
  ∧ (now - Player.getLastActivity p ≤ 299 →
     GameSession.getPlayer (GameSession.update now s) id = Some p).
Proof.
  unfold Player.getLastActivity. intros Hp.
  rewrite update_lookup. unfold GameSession.getPlayer in Hp. rewrite Hp. simpl.
  split; intros Hage.
  - rewrite decide_True; [done | lia].
  - rewrite decide_False; [done | lia].
Qed.

Lemma update_evicts_idle_witness :
  GameSession.getPlayer two_player_session "idle"
  = Some (Player.new "idle" "Karna" 1000)
  ∧ GameSession.getPlayer two_player_session "live"
    = Some (Player.new "live" "Arjuna" 1002)
  ∧ GameSession.getPlayer (GameSession.update 1301 two_player_session) "idle" = None
  ∧ GameSession.getPlayer (GameSession.update 1301 two_player_session) "live"
    = Some (Player.new "live" "Arjuna" 1002).
Proof.
  assert (Hidle : GameSession.getPlayer two_player_session "idle"
                  = Some (Player.new "idle" "Karna" 1000)) by (vm_compute; reflexivity).
  assert (Hlive : GameSession.getPlayer two_player_session "live"
                  = Some (Player.new "live" "Arjuna" 1002)) by (vm_compute; reflexivity).
  split_and!; [exact Hidle | exact Hlive | |].
  - apply (update_evicts_idle 1301 two_player_session "idle" _ Hidle). simpl. lia.
  - apply (update_evicts_idle 1301 two_player_session "live" _ Hlive). simpl. lia.
Defined.

End eviction.

(** ** GameWorld: chunk creation on access *)

Section world.

Implicit Types (w : GameWorld.t) (c : WorldChunk.t) (x y z : Z).

Lemma WriteCompact_members_not_empty m ms :
  WriteCompact (JObject (m :: ms)) ≠ EMPTY_BLOB.
Proof.
  cbn [WriteCompact List.map join].
  destruct (List.map _ ms); unfold quoted, dquote, EMPTY_BLOB; simpl; discriminate.
Qed.

Lemma serialize_not_empty c blob :
  WorldChunk.serialize c = Some blob → blob ≠ EMPTY_BLOB.
Proof.
  unfold WorldChunk.serialize, WorldChunk.serialize_json.
  destruct (WorldChunk.compress (WorldChunk.blocks c)); [| done].
  cbv [fmap option_fmap option_map mbind option_bind].
  intros Hs. apply (inj Some) in Hs. rewrite <-Hs.
  apply WriteCompact_members_not_empty.
Qed.

Lemma serialize_wf c :
  WorldChunk.wf c → ∃ blob, WorldChunk.serialize c = Some blob ∧ blob ≠ EMPTY_BLOB.
Proof.
  intros (b0 & rest & v & _ & _ & Hs & _)%serialize_entries.
  exists (WriteCompact v). split; [done |]. by eapply serialize_not_empty.
Qed.

Lemma serialize_json_new cx cz :
  WorldChunk.serialize_json (WorldChunk.new cx cz)
  = Some (JObject [("chunkId", JString (GameWorld.chunk_key cx cz));
                   ("blocks", JArray [WorldChunk.entry_json (0, 65536)]);
                   ("lastModified", JInteger 0)]).
Proof.
  unfold WorldChunk.serialize_json, WorldChunk.getChunkId, GameWorld.chunk_key.
  unfold WorldChunk.new. cbn [WorldChunk.blocks WorldChunk.chunkX WorldChunk.chunkZ
                              WorldChunk.lastModified].
  rewrite compress_zeros.
  - rewrite length_replicate. reflexivity.
  - rewrite length_replicate. unfold WorldChunk.VOLUME, CHUNK_SIZE. lia.
  - by apply Forall_replicate.
Qed.

Lemma getChunk_absent w cx cz :
  GameWorld.chunks w !! GameWorld.chunk_key cx cz = None →
  GameWorld.getChunk w cx cz
  = (GameWorld.chunk_key cx cz,
     GameWorld.mk (GameWorld.worldId w)
       (<[GameWorld.chunk_key cx cz := WorldChunk.new cx cz]> (GameWorld.chunks w))).
Proof. intros Hnone. unfold GameWorld.getChunk. by rewrite Hnone. Qed.

Lemma getChunk_present w cx cz c :
  GameWorld.chunks w !! GameWorld.chunk_key cx cz = Some c →
  GameWorld.getChunk w cx cz = (GameWorld.chunk_key cx cz, w).
Proof. intros Hsome. unfold GameWorld.getChunk. by rewrite Hsome. Qed.

Lemma new_getBlock cx cz x y z :
  WorldChunk.getBlock (WorldChunk.new cx cz) x y z = 0.
Proof.
  unfold WorldChunk.getBlock.
  destruct (WorldChunk.out_of_range x y z) eqn:Hg; [done |].
  apply out_of_range_false, index_bound in Hg.
  unfold WorldChunk.new. cbn [WorldChunk.blocks].
  apply list_lookup_total_correct, lookup_replicate_2. lia.
Qed.

(** C10. For every world coordinate whose chunk [(cx, cz)] is not in the
    map, [serializeChunk("<cx>:<cz>")] is ["{}"] beforehand; [getBlock]
    returns 0 and stores a fresh chunk (all cells zero, [lastModified] 0)
    under ["<cx>:<cz>"], and [setBlock] stores the fresh chunk with the
    write applied; after either call [serializeChunk("<cx>:<cz>")] is a
    chunk blob different from ["{}"]. *)
Theorem world_access_creates_chunk (now : Z) w x y z (blockType : Z) :
  let cx := GameWorld.chunk_coord x in
  let cz := GameWorld.chunk_coord z in
  let id := pretty cx +:+ ":" +:+ pretty cz in
  GameWorld.chunks w !! id = None →
  GameWorld.serializeChunk w id = Some EMPTY_BLOB
  ∧ (let r := GameWorld.getBlock w x y z in
     r.1 = 0
     ∧ GameWorld.chunks r.2 = <[id := WorldChunk.new cx cz]> (GameWorld.chunks w)
     ∧ WorldChunk.lastModified (WorldChunk.new cx cz) = 0
     ∧ Forall (λ b, b = 0) (WorldChunk.blocks (WorldChunk.new cx cz))
     ∧ GameWorld.serializeChunk r.2 id
       = Some (WriteCompact
                 (JObject [("chunkId", JString id);
                           ("blocks", JArray [WorldChunk.entry_json (0, 65536)]);
                           ("lastModified", JInteger 0)]))
     ∧ GameWorld.serializeChunk r.2 id ≠ Some EMPTY_BLOB)
  ∧ (let w' := GameWorld.setBlock now w x y z blockType in
     GameWorld.chunks w'
     = <[id := WorldChunk.setBlock now (WorldChunk.new cx cz)
                 (GameWorld.local_coord x cx) y (GameWorld.local_coord z cz)
                 blockType]> (GameWorld.chunks w)
     ∧ ∃ blob, GameWorld.serializeChunk w' id = Some blob ∧ blob ≠ EMPTY_BLOB).
Proof.
  intros cx cz id Hnone. fold (GameWorld.chunk_key cx cz) in id.
  split; [| split].
  - unfold GameWorld.serializeChunk. by rewrite Hnone.
  - unfold GameWorld.getBlock. fold cx cz. rewrite getChunk_absent by done.
    fold id. cbn [fst snd GameWorld.chunks]. rewrite lookup_insert_eq.
    cbn [from_option]. unfold GameWorld.serializeChunk.
    cbn [GameWorld.chunks]. rewrite lookup_insert_eq.
    unfold WorldChunk.serialize. rewrite serialize_json_new. fold id.
    split; [apply new_getBlock |]. split; [done |]. split; [done |].
    split; [by apply Forall_replicate |]. split; [done |].
    intros Hblob. apply (inj Some) in Hblob.
    by eapply WriteCompact_members_not_empty.
  - unfold GameWorld.setBlock. fold cx cz. rewrite getChunk_absent by done.
    fold id. unfold GameWorld.with_chunk. cbn [GameWorld.chunks GameWorld.worldId].
    rewrite alter_insert_eq. split; [done |].
    unfold GameWorld.serializeChunk. cbn [GameWorld.chunks].
    rewrite lookup_insert_eq. apply serialize_wf, wf_setBlock, wf_new.
Qed.

End world.

Lemma world_access_creates_chunk_witness :
  let w := GameWorld.new "S1" in
  GameWorld.serializeChunk w "-1:-1" = Some EMPTY_BLOB
  ∧ GameWorld.chunks (GameWorld.getBlock w (-1) 10 (-1)).2
    = <["-1:-1" := WorldChunk.new (-1) (-1)]> (GameWorld.chunks w)
  ∧ GameWorld.serializeChunk (GameWorld.getBlock w (-1) 10 (-1)).2 "-1:-1"
    ≠ Some EMPTY_BLOB.
Proof.
  destruct (world_access_creates_chunk 9 (GameWorld.new "S1") (-1) 10 (-1) 5)
    as (Hbefore & (_ & Hchunks & _ & _ & _ & Hafter) & _).
  - vm_compute. reflexivity.
  - split_and!; [exact Hbefore | exact Hchunks | exact Hafter].
Defined.

(** ** GameWorld: coordinate translation *)

Section translation.

Implicit Types (w : GameWorld.t) (c : WorldChunk.t) (x y z : Z).

Lemma chunk_coord_exact x :
  Z.abs x < 2 ^ 24 → GameWorld.chunk_coord x = x `div` 16.
Proof.
  intros Hx. unfold GameWorld.chunk_coord. rewrite float_of_int_exact by done.
  unfold CHUNK_SIZE, Qdiv, Qmult, Qinv, inject_Z, Qfloor. cbn [Qnum Qden].
  by rewrite Z.mul_1_r.
Qed.

Lemma local_coord_exact x :
  Z.abs x < 2 ^ 24 →
  GameWorld.local_coord x (x `div` 16) = x `mod` 16 ∧ 0 ≤ x `mod` 16 < 16.
Proof.
  intros Hx. unfold GameWorld.local_coord, CHUNK_SIZE.
  pose proof (Z.div_mod x 16 ltac:(lia)) as Hdm.
  pose proof (Z.mod_pos_bound x 16 ltac:(lia)) as Hm.
  rewrite (wrap32_small (x `div` 16 * 16)) by lia.
  rewrite wrap32_small by lia. lia.
Qed.

(** The chunk a write lands in: the stored chunk, or a fresh one. *)
Lemma setBlock_chunk now w x y z ty :
  let cx := GameWorld.chunk_coord x in
  let cz := GameWorld.chunk_coord z in
  let id := GameWorld.chunk_key cx cz in
  GameWorld.chunks (GameWorld.setBlock now w x y z ty) !! id
  = Some (WorldChunk.setBlock now
            (default (WorldChunk.new cx cz) (GameWorld.chunks w !! id))
            (GameWorld.local_coord x cx) y (GameWorld.local_coord z cz) ty).
Proof.
  intros cx cz id. unfold GameWorld.setBlock. fold cx cz.
  destruct (GameWorld.chunks w !! id) as [c |] eqn:Hc.
  - rewrite (getChunk_present _ _ _ c) by done. fold id.
    unfold GameWorld.with_chunk. cbn [GameWorld.chunks].
    rewrite lookup_alter_eq, Hc. done.
  - rewrite getChunk_absent by done. fold id.
    unfold GameWorld.with_chunk. cbn [GameWorld.chunks].
    rewrite alter_insert_eq, lookup_insert_eq. done.
Qed.

Lemma getBlock_chunk w x y z c :
  let cx := GameWorld.chunk_coord x in
  let cz := GameWorld.chunk_coord z in
  GameWorld.chunks w !! GameWorld.chunk_key cx cz = Some c →
  GameWorld.getBlock w x y z
  = (WorldChunk.getBlock c (GameWorld.local_coord x cx) y (GameWorld.local_coord z cz),
     w).
Proof.
  intros cx cz Hc. unfold GameWorld.getBlock. fold cx cz.
  rewrite (getChunk_present _ _ _ c) by done. by rewrite Hc.
Qed.

(** Within 24 bits the translation is floor division and a block written
    through the world is read back. *)
Lemma world_setBlock_getBlock_24bit now w x y z ty :
  map_Forall (λ _ c, WorldChunk.wf c) (GameWorld.chunks w) →
  Z.abs x < 2 ^ 24 → Z.abs z < 2 ^ 24 → 0 ≤ y < 256 →
  GameWorld.chunk_coord x = x `div` 16
  ∧ 0 ≤ GameWorld.local_coord x (GameWorld.chunk_coord x) < 16
  ∧ (GameWorld.getBlock (GameWorld.setBlock now w x y z ty) x y z).1 = ty.
Proof.
  intros Hwf Hx Hz Hy.
  pose proof (chunk_coord_exact x Hx) as Hcx.
  pose proof (chunk_coord_exact z Hz) as Hcz.
  destruct (local_coord_exact x Hx) as [Hlx Hrx].
  destruct (local_coord_exact z Hz) as [Hlz Hrz].
  rewrite Hcx, Hlx. split; [done |]. split; [done |].
  pose proof (setBlock_chunk now w x y z ty) as Hset. cbv zeta in Hset.
  rewrite (getBlock_chunk _ _ _ _ _ Hset). cbn [fst].
  apply getBlock_setBlock_same.
  - destruct (GameWorld.chunks w !! _) as [c |] eqn:Hc; simpl.
    + by eapply Hwf.
    + apply wf_new.
  - rewrite Hcx, Hcz, Hlx, Hlz. unfold in_range, CHUNK_SIZE. lia.
Qed.

(** C2 fails beyond 24 bits.  At [x = 16777231 = 2^24 + 15] the conversion
    to [float] rounds up to [16777232], the chunk coordinate is [1048577]
    instead of [floor(x / 16) = 1048576], the local coordinate is [-1], the
    write is dropped by the range guard and the block reads back as 0. *)
Theorem world_setBlock_getBlock_float_rounding :
  let x := 16777231 in
  let w := GameWorld.setBlock 9 (GameWorld.new "S1") x 10 0 5 in
  float_of_int x = inject_Z 16777232
  ∧ GameWorld.chunk_coord x = 1048577
  ∧ x `div` 16 = 1048576
  ∧ GameWorld.local_coord x (GameWorld.chunk_coord x) = -1
  ∧ (GameWorld.getBlock w x 10 0).1 = 0
  ∧ (GameWorld.getBlock w x 10 0).1 ≠ 5.
Proof. vm_compute. split_and!; congruence. Qed.

End translation.

(** ** Lifecycle *)

Section lifecycle.

Import Lifecycle.

Lemma scan_gameMode_absent props init :
  Forall (λ prop, prop.1 ≠ "gameMode") props →
  scan_gameMode props init = init.
Proof.
  unfold scan_gameMode. intros Hprops. revert init.
  induction Hprops as [| prop props Hkey _ IH]; intros init; simpl; [done |].
  apply String.eqb_neq in Hkey. by rewrite Hkey, IH.
Qed.

(** C7. From the idle process, [onStartGameSession] with session id ["S1"]
    and game properties [[("gameMode", "arena")]] installs a session with
    id ["S1"] and mode ["arena"] and activates it; with no property keyed
    ["gameMode"] the mode is ["standard"]; [onProcessTerminate] leaves no
    session installed. *)
Theorem session_lifecycle :
  (∀ now,
     let started :=
       (onStartGameSession now idle (mk_descriptor "S1" [("gameMode", "arena")])).2 in
     (∃ s, g_gameSession started = Some s
           ∧ GameSession.getSessionId s = "S1"
           ∧ GameSession.gameMode s = "arena")
     ∧ emitted started = [ActivateGameSession]
     ∧ g_gameSession (onProcessTerminate started).2 = None)
  ∧ (∀ now st d,
       Forall (λ prop, prop.1 ≠ "gameMode") (GameProperties d) →
       ∃ s, g_gameSession (onStartGameSession now st d).2 = Some s
            ∧ GameSession.getSessionId s = GameSessionId d
            ∧ GameSession.gameMode s = "standard")
  ∧ (∀ st, (onProcessTerminate st).1 = true
           ∧ g_gameSession (onProcessTerminate st).2 = None
           ∧ emitted (onProcessTerminate st).2 = emitted st ++ [ProcessEnding]).
Proof.
  split_and!.
  - intros now started. subst started. simpl. split_and!; [| done | done].
    eexists. split; [done |]. done.
  - intros now st d Hprops. simpl. eexists. split; [done |].
    simpl. by rewrite scan_gameMode_absent.
  - done.
Qed.

Lemma session_lifecycle_witness :
  ∃ s, g_gameSession
         (onStartGameSession 50 idle (mk_descriptor "S2" [("map", "forest")])).2
       = Some s
       ∧ GameSession.getSessionId s = "S2"
       ∧ GameSession.gameMode s = "standard".
Proof.
  destruct session_lifecycle as (_ & Hdefault & _).
  apply (Hdefault 50 idle (mk_descriptor "S2" [("map", "forest")])).
  simpl. repeat constructor. simpl. discriminate.
Defined.

End lifecycle.

(** ** Scenarios *)

(** Negative coordinates land in chunk [(-1, -1)] and do not leak into the
    chunk at the origin. *)
Example negative_coordinate_chunking :
  let w := GameWorld.setBlock 9 (GameWorld.new "S1") (-1) 10 (-1) 5 in
  GameWorld.getModifiedChunks w 0 = ["-1:-1"]
  ∧ (GameWorld.getBlock w (-1) 10 (-1)).1 = 5
  ∧ (GameWorld.getBlock w 0 10 0).1 = 0.
Proof. vm_compute. done. Qed.

(** Sixteen distinct players fill the roster; the seventeenth is turned
    away. *)
Example roster_capacity :
  GameSession.getPlayerCount full_session = 16%nat
  ∧ (GameSession.addPlayer 300 full_session "late" "Drona").1 = false
  ∧ GameSession.getPlayerCount
      (GameSession.addPlayer 300 full_session "late" "Drona").2 = 16%nat.
Proof. vm_compute. done. Qed.

(** A written cell splits the single run of an empty chunk. *)
Example chunk_rle_after_write :
  WorldChunk.compress (WorldChunk.blocks (WorldChunk.new 0 0)) = Some [(0, 65536)]
  ∧ WorldChunk.compress
      (WorldChunk.blocks (WorldChunk.setBlock 9 (WorldChunk.new 0 0) 0 0 0 7))
    = Some [(7, 1); (0, 65535)].
Proof. vm_compute. done. Qed.

(** * Further properties *)

(** ** WorldChunk: cells *)

Section chunk_more.

Implicit Types (c : WorldChunk.t) (x y z : Z) (ws : list block_write).

Lemma index_inj x y z x' y' z' :
  in_range x y z → in_range x' y' z' →
  WorldChunk.index x y z = WorldChunk.index x' y' z' →
  x = x' ∧ y = y' ∧ z = z'.
Proof. unfold in_range, WorldChunk.index, CHUNK_SIZE. lia. Qed.

Lemma setBlock_other_cell now c x y z ty x' y' z' :
  (x, y, z) ≠ (x', y', z') →
  WorldChunk.getBlock (WorldChunk.setBlock now c x y z ty) x' y' z'
  = WorldChunk.getBlock c x' y' z'.
Proof.
  intros Hne. unfold WorldChunk.getBlock, WorldChunk.setBlock.
  destruct (WorldChunk.out_of_range x' y' z') eqn:Hr'; [done |].
  destruct (WorldChunk.out_of_range x y z) eqn:Hr; [done |].
  cbn [WorldChunk.blocks]. apply list_lookup_total_insert_ne.
  apply out_of_range_false in Hr, Hr'.
  pose proof (index_bound _ _ _ Hr). pose proof (index_bound _ _ _ Hr').
  intros Heq. apply Z2Nat.inj in Heq; [| lia | lia].
  apply index_inj in Heq as (-> & -> & ->); done.
Qed.

(** X1. A write to a chunk never changes what [getBlock] returns at any
    other local coordinate, in range or not. *)
Theorem chunk_setBlock_other_cell now c x y z ty x' y' z' :
  (x, y, z) ≠ (x', y', z') →
  WorldChunk.getBlock (WorldChunk.setBlock now c x y z ty) x' y' z'
  = WorldChunk.getBlock c x' y' z'.
Proof. apply setBlock_other_cell. Qed.

Lemma chunk_setBlock_other_cell_witness :
  let c := WorldChunk.setBlock 5 (WorldChunk.new 0 0) 1 2 3 4 in
  WorldChunk.getBlock (WorldChunk.setBlock 9 c 2 2 3 7) 1 2 3 = 4.
Proof.
  intros c. rewrite (chunk_setBlock_other_cell 9 c 2 2 3 7 1 2 3).
  - vm_compute. reflexivity.
  - intros [=].
Defined.

(** X2. An in-range write is read back, stamps the chunk with the clock
    reading of the write and keeps the chunk's coordinates and the size of
    its block vector. *)
Theorem chunk_setBlock_in_range now c x y z ty :
  WorldChunk.wf c → in_range x y z →
  let c' := WorldChunk.setBlock now c x y z ty in
  WorldChunk.getBlock c' x y z = ty
  ∧ WorldChunk.getLastModified c' = now
  ∧ WorldChunk.getChunkId c' = WorldChunk.getChunkId c
  ∧ WorldChunk.wf c'.
Proof.
  intros Hwf Hr c'. subst c'.
  split; [by apply getBlock_setBlock_same |].
  split; [| split; [| by apply wf_setBlock]].
  - unfold WorldChunk.getLastModified, WorldChunk.setBlock.
    by rewrite (proj2 (out_of_range_false x y z) Hr).
  - unfold WorldChunk.getChunkId, WorldChunk.setBlock.
    by destruct (WorldChunk.out_of_range x y z).
Qed.

Lemma chunk_setBlock_in_range_witness :
  let c' := WorldChunk.setBlock 9 (WorldChunk.new 2 (-3)) 15 255 0 7 in
  WorldChunk.getBlock c' 15 255 0 = 7
  ∧ WorldChunk.getLastModified c' = 9
  ∧ WorldChunk.getChunkId c' = WorldChunk.getChunkId (WorldChunk.new 2 (-3))
  ∧ WorldChunk.wf c'.
Proof.
  apply (chunk_setBlock_in_range 9 (WorldChunk.new 2 (-3)) 15 255 0 7).
  - vm_compute. reflexivity.
  - unfold in_range, CHUNK_SIZE. lia.
Defined.

Lemma wf_apply_writes ws c :
  WorldChunk.wf c → WorldChunk.wf (foldl apply_write c ws).
Proof.
  revert c. induction ws as [| w ws IH]; intros c Hwf; simpl; [done |].
  apply IH. by apply wf_setBlock.
Qed.

Lemma last_write_snoc ws w x y z :
  last_write (ws ++ [w]) x y z
  = if (w_x w =? x) && (w_y w =? y) && (w_z w =? z)
    then Some (w_type w) else last_write ws x y z.
Proof. unfold last_write. by rewrite foldl_app. Qed.

(** X3. After any sequence of writes to a new chunk, [getBlock] at an
    in-range coordinate returns the type of the last write aimed at that
    coordinate, and 0 when there was none. *)
Theorem chunk_last_write_wins cx cz ws x y z :
  in_range x y z →
  WorldChunk.getBlock (foldl apply_write (WorldChunk.new cx cz) ws) x y z
  = default 0 (last_write ws x y z).
Proof.
  intros Hr. induction ws as [| w ws IH] using rev_ind.
  - simpl. apply new_getBlock.
  - rewrite foldl_app, last_write_snoc. cbn [foldl]. unfold apply_write at 1.
    destruct ((w_x w =? x) && (w_y w =? y) && (w_z w =? z)) eqn:Hhit.
    + apply andb_prop in Hhit as [[Hx Hy]%andb_prop Hz].
      apply Z.eqb_eq in Hx, Hy, Hz. rewrite Hx, Hy, Hz.
      apply getBlock_setBlock_same; [| done].
      apply wf_apply_writes, wf_new.
    + rewrite setBlock_other_cell; [done |].
      intros [= Hx Hy Hz]. rewrite Hx, Hy, Hz, !Z.eqb_refl in Hhit. done.
Qed.

Lemma chunk_last_write_wins_witness :
  WorldChunk.getBlock
    (foldl apply_write (WorldChunk.new 0 0)
           [mk_write 1 3 4 5 7; mk_write 2 16 0 0 9; mk_write 3 3 4 5 8;
            mk_write 4 0 0 0 1])
    3 4 5 = 8.
Proof.
  rewrite (chunk_last_write_wins 0 0 _ 3 4 5).
  - reflexivity.
  - unfold in_range, CHUNK_SIZE. lia.
Defined.

End chunk_more.

(** ** WorldChunk: the shape of the encoding *)

Section rle_more.

Implicit Types (c : WorldChunk.t) (rest : list Z) (cur count : Z).

Lemma runs_counts_positive rest cur count :
  1 ≤ count → Forall (λ e, 1 ≤ e.2) (runs rest cur count).
Proof.
  revert cur count. induction rest as [| b rest IH]; intros cur count Hc; simpl.
  - by repeat constructor.
  - destruct (b =? cur).
    + apply IH. lia.
    + constructor; [done |]. apply IH. lia.
Qed.

Lemma count_sum_bounds (entries : list (Z * Z)) :
  Forall (λ e, 1 ≤ e.2) entries →
  Z.of_nat (length entries) ≤ count_sum entries
  ∧ Forall (λ e, e.2 ≤ count_sum entries) entries.
Proof.
  induction 1 as [| e entries He _ [IHlen IHall]]; simpl.
  - split; [lia | constructor].
  - split; [lia |]. constructor; [lia |].
    eapply Forall_impl; [exact IHall |]. simpl. intros. lia.
Qed.

(** X4. Every entry of the serialized [blocks] array of a chunk has a
    count between 1 and 65536, and the array has at most 65536 entries. *)
Theorem serialize_counts_positive c :
  WorldChunk.wf c →
  ∃ v entries,
    WorldChunk.serialize_json c = Some v
    ∧ json_blocks v = Some entries
    ∧ Forall (λ e, 1 ≤ e.2 ≤ 65536) entries
    ∧ 1 ≤ Z.of_nat (length entries) ≤ 65536.
Proof.
  intros Hwf.
  destruct (serialize_entries c Hwf) as (b0 & rest & v & Hbs & Hv & _ & Hb).
  exists v, (runs rest b0 1). split; [done |]. split; [done |].
  pose proof (runs_counts_positive rest b0 1 ltac:(lia)) as Hpos.
  destruct (count_sum_bounds _ Hpos) as [Hlen Hall].
  rewrite runs_count_sum in Hlen, Hall.
  unfold WorldChunk.wf, WorldChunk.VOLUME, CHUNK_SIZE in Hwf.
  rewrite Hbs in Hwf. simpl length in Hwf.
  split.
  - apply Forall_and. split; [done |].
    eapply Forall_impl; [exact Hall |]. simpl. intros. lia.
  - split; [| lia].
    destruct (runs_head rest b0 1) as (n & tl & ->). simpl. lia.
Qed.

Lemma serialize_counts_positive_witness :
  ∃ v entries,
    WorldChunk.serialize_json (WorldChunk.setBlock 9 (WorldChunk.new 0 0) 1 2 3 4)
    = Some v
    ∧ json_blocks v = Some entries
    ∧ Forall (λ e, 1 ≤ e.2 ≤ 65536) entries
    ∧ 1 ≤ Z.of_nat (length entries) ≤ 65536.
Proof.
  apply (serialize_counts_positive (WorldChunk.setBlock 9 (WorldChunk.new 0 0) 1 2 3 4)).
  vm_compute. reflexivity.
Defined.

Lemma runs_skip n rest cur count :
  runs (replicate n cur ++ rest) cur count = runs rest cur (count + Z.of_nat n).
Proof.
  revert count. induction n as [| n IH]; intros count; simpl.
  - by rewrite Z.add_0_r.
  - rewrite Z.eqb_refl, IH. f_equal. lia.
Qed.

Lemma compress_cons b0 rest :
  Z.of_nat (length rest) < 2 ^ 31 - 1 →
  WorldChunk.compress (b0 :: rest) = Some (runs rest b0 1).
Proof. intros Hlen. simpl. by rewrite rle_loop_runs by lia. Qed.

Lemma single_write_cells (n i ty : Z) :
  0 ≤ i < n →
  <[Z.to_nat i := ty]> (replicate (Z.to_nat n) 0)
  = replicate (Z.to_nat i) 0 ++ ty :: replicate (Z.to_nat (n - 1 - i)) 0.
Proof.
  intros Hi.
  replace (Z.to_nat n) with (Z.to_nat i + S (Z.to_nat (n - 1 - i)))%nat by lia.
  rewrite replicate_add, insert_app_r_alt by (rewrite length_replicate; lia).
  by rewrite length_replicate, Nat.sub_diag.
Qed.

(** X5. One in-range write of a non-zero type to a new chunk serializes to
    the run of zeros before the cell (if any), the single written cell,
    and the run of zeros after it (if any), the cell being at position
    [y * 256 + z * 16 + x]. *)
Theorem serialize_single_write now cx cz x y z ty :
  in_range x y z → ty ≠ 0 →
  let i := WorldChunk.index x y z in
  WorldChunk.compress
    (WorldChunk.blocks (WorldChunk.setBlock now (WorldChunk.new cx cz) x y z ty))
  = Some ((if i =? 0 then [] else [(0, i)])
          ++ [(ty, 1)]
          ++ (if i =? 65535 then [] else [(0, 65535 - i)])).
Proof.
  intros Hr Hty i.
  pose proof (index_bound _ _ _ Hr) as Hi. fold i in Hi.
  unfold WorldChunk.VOLUME, CHUNK_SIZE in Hi.
  unfold WorldChunk.setBlock. rewrite (proj2 (out_of_range_false x y z) Hr).
  unfold WorldChunk.new. cbn [WorldChunk.blocks]. fold i.
  rewrite (single_write_cells _ i ty) by (unfold WorldChunk.VOLUME, CHUNK_SIZE; lia).
  replace (WorldChunk.VOLUME - 1 - i) with (65535 - i) by done.
  assert (Hafter : runs (replicate (Z.to_nat (65535 - i)) 0) ty 1
                   = (ty, 1) :: (if i =? 65535 then [] else [(0, 65535 - i)])).
  { destruct (Z.eqb_spec i 65535) as [-> | Hlast]; [done |].
    replace (Z.to_nat (65535 - i)) with (S (Z.to_nat (65534 - i))) by lia.
    cbn [replicate runs].
    destruct (Z.eqb_spec 0 ty) as [<- | _]; [done |].
    rewrite runs_replicate. do 3 f_equal. lia. }
  destruct (Z.eqb_spec i 0) as [Hi0 | Hi0].
  - rewrite Hi0. change (Z.to_nat 0) with 0%nat. cbn [replicate app].
    rewrite compress_cons by (rewrite length_replicate; lia).
    rewrite Hi0 in Hafter. by rewrite Hafter.
  - replace (Z.to_nat i) with (S (Z.to_nat (i - 1))) by lia.
    cbn [replicate app].
    rewrite compress_cons
      by (rewrite length_app, length_replicate; simpl length;
          rewrite length_replicate; lia).
    rewrite runs_skip. cbn [runs app].
    destruct (Z.eqb_spec ty 0) as [-> | _]; [done |].
    rewrite Hafter. do 3 f_equal. lia.
Qed.

Lemma serialize_single_write_witness :
  WorldChunk.compress
    (WorldChunk.blocks (WorldChunk.setBlock 9 (WorldChunk.new 0 0) 15 10 15 5))
  = Some [(0, 2815); (5, 1); (0, 62720)].
Proof.
  rewrite (serialize_single_write 9 0 0 15 10 15 5).
  - reflexivity.
  - unfold in_range, CHUNK_SIZE. lia.
  - discriminate.
Defined.

End rle_more.

(** ** GameWorld: chunk ids *)

Section chunk_ids.

Lemma pretty_N_go_colon_free (n : N) (s : string) :
  colon_free s = true → colon_free (pretty_N_go n s) = true.
Proof.
  revert s. induction (N.lt_wf_0 n) as [n _ IH]; intros s Hs.
  destruct (decide (n = 0)%N) as [-> | Hn].
  - by rewrite pretty_N_go_0.
  - rewrite pretty_N_go_step by lia. apply IH.
    + apply N.div_lt; lia.
    + simpl. rewrite Hs. unfold pretty_N_char. by repeat case_match.
Qed.

Lemma pretty_Z_colon_free (n : Z) : colon_free (pretty n) = true.
Proof.
  destruct n as [| p | p]; [done | |].
  - unfold pretty, pretty_Z, pretty, pretty_positive, pretty, pretty_N.
    case_decide; [done |]. by apply pretty_N_go_colon_free.
  - unfold pretty, pretty_Z. simpl.
    unfold pretty, pretty_positive, pretty, pretty_N.
    case_decide; [done |]. by apply pretty_N_go_colon_free.
Qed.

Lemma colon_split (s1 s2 t1 t2 : string) :
  colon_free s1 = true → colon_free s2 = true →
  s1 +:+ ":" +:+ t1 = s2 +:+ ":" +:+ t2 → s1 = s2 ∧ t1 = t2.
Proof.
  revert s2. induction s1 as [| a s1 IH]; intros [| b s2] H1 H2 Heq; simpl in *.
  - by injection Heq.
  - injection Heq as <- _. done.
  - injection Heq as -> _. done.
  - injection Heq as -> Heq.
    apply andb_prop in H1 as [_ H1]. apply andb_prop in H2 as [_ H2].
    destruct (IH s2 H1 H2 Heq) as [-> ->]. done.
Qed.

Lemma chunk_key_eq (cx cz cx' cz' : Z) :
  GameWorld.chunk_key cx cz = GameWorld.chunk_key cx' cz' →
  cx = cx' ∧ cz = cz'.
Proof.
  unfold GameWorld.chunk_key. intros Heq.
  apply colon_split in Heq as [Hx Hz]; [| apply pretty_Z_colon_free..].
  split; by apply (inj pretty).
Qed.

(** X6. Two chunk coordinates have the same chunk id only when they are
    the same coordinates: distinct chunks never share a map entry. *)
Theorem chunk_key_inj (cx cz cx' cz' : Z) :
  GameWorld.chunk_key cx cz = GameWorld.chunk_key cx' cz' →
  cx = cx' ∧ cz = cz'.
Proof. apply chunk_key_eq. Qed.

Lemma chunk_key_inj_witness :
  GameWorld.chunk_coord (-1) = GameWorld.chunk_coord (-16)
  ∧ GameWorld.chunk_coord 31 = GameWorld.chunk_coord 16.
Proof.
  apply (chunk_key_inj (GameWorld.chunk_coord (-1)) (GameWorld.chunk_coord 31)
                       (GameWorld.chunk_coord (-16)) (GameWorld.chunk_coord 16)).
  vm_compute. reflexivity.
Defined.

End chunk_ids.

(** ** GameWorld: reads and writes *)

Section world_more.

Implicit Types (w : GameWorld.t) (c : WorldChunk.t) (x y z : Z).

Lemma wrap32_sub_inj (a b k : Z) :
  is_int a → is_int b → wrap32 (a - k) = wrap32 (b - k) → a = b.
Proof.
  unfold is_int, wrap32. intros Ha Hb Heq.
  pose proof (Z.div_mod (a - k + 2 ^ 31) (2 ^ 32) ltac:(lia)) as Hda.
  pose proof (Z.div_mod (b - k + 2 ^ 31) (2 ^ 32) ltac:(lia)) as Hdb.
  set (qa := (a - k + 2 ^ 31) `div` 2 ^ 32) in *.
  set (qb := (b - k + 2 ^ 31) `div` 2 ^ 32) in *.
  lia.
Qed.

(** What a read returns: the cell of the stored chunk, or of a new one. *)
Lemma getBlock_value w x y z :
  let cx := GameWorld.chunk_coord x in
  let cz := GameWorld.chunk_coord z in
  (GameWorld.getBlock w x y z).1
  = WorldChunk.getBlock
      (default (WorldChunk.new cx cz) (GameWorld.chunks w !! GameWorld.chunk_key cx cz))
      (GameWorld.local_coord x cx) y (GameWorld.local_coord z cz).
Proof.
  intros cx cz. unfold GameWorld.getBlock. fold cx cz.
  destruct (GameWorld.chunks w !! GameWorld.chunk_key cx cz) as [c |] eqn:Hc.
  - rewrite (getChunk_present _ _ _ c) by done. cbn [fst]. by rewrite Hc.
  - rewrite getChunk_absent by done. cbn [fst GameWorld.chunks].
    by rewrite lookup_insert_eq.
Qed.

Lemma getBlock_world w x y z :
  let cx := GameWorld.chunk_coord x in
  let cz := GameWorld.chunk_coord z in
  let id := GameWorld.chunk_key cx cz in
  GameWorld.chunks (GameWorld.getBlock w x y z).2
  = match GameWorld.chunks w !! id with
    | Some _ => GameWorld.chunks w
    | None => <[id := WorldChunk.new cx cz]> (GameWorld.chunks w)
    end
  ∧ GameWorld.worldId (GameWorld.getBlock w x y z).2 = GameWorld.worldId w.
Proof.
  intros cx cz id. unfold GameWorld.getBlock. fold cx cz.
  destruct (GameWorld.chunks w !! id) as [c |] eqn:Hc.
  - by rewrite (getChunk_present _ _ _ c).
  - by rewrite getChunk_absent.
Qed.

Lemma setBlock_chunk_ne now w x y z ty id' :
  id' ≠ GameWorld.chunk_key (GameWorld.chunk_coord x) (GameWorld.chunk_coord z) →
  GameWorld.chunks (GameWorld.setBlock now w x y z ty) !! id'
  = GameWorld.chunks w !! id'.
Proof.
  intros Hne. unfold GameWorld.setBlock.
  set (cx := GameWorld.chunk_coord x). set (cz := GameWorld.chunk_coord z).
  fold cx cz in Hne.
  destruct (GameWorld.chunks w !! GameWorld.chunk_key cx cz) as [c |] eqn:Hc.
  - rewrite (getChunk_present _ _ _ c) by done.
    unfold GameWorld.with_chunk. cbn [GameWorld.chunks].
    by rewrite lookup_alter_ne.
  - rewrite getChunk_absent by done.
    unfold GameWorld.with_chunk. cbn [GameWorld.chunks].
    by rewrite lookup_alter_ne, lookup_insert_ne.
Qed.

(** X7. A write through the world never changes what [getBlock] returns at
    any other world coordinate, for all [int] coordinates, including those
    beyond 24 bits where the chunk translation is inexact. *)
Theorem world_setBlock_other_block now w x y z ty x' y' z' :
  is_int x → is_int z → is_int x' → is_int z' →
  (x, y, z) ≠ (x', y', z') →
  (GameWorld.getBlock (GameWorld.setBlock now w x y z ty) x' y' z').1
  = (GameWorld.getBlock w x' y' z').1.
Proof.
  intros Hx Hz Hx' Hz' Hne. rewrite !getBlock_value.
  set (cx := GameWorld.chunk_coord x). set (cz := GameWorld.chunk_coord z).
  set (cx' := GameWorld.chunk_coord x'). set (cz' := GameWorld.chunk_coord z').
  destruct (decide (GameWorld.chunk_key cx' cz' = GameWorld.chunk_key cx cz))
    as [Hid | Hid].
  - destruct (chunk_key_eq _ _ _ _ Hid) as [Hcx Hcz]. rewrite Hcx, Hcz.
    pose proof (setBlock_chunk now w x y z ty) as Hset. cbv zeta in Hset.
    fold cx cz in Hset. rewrite Hset. cbn [default from_option].
    apply setBlock_other_cell.
    intros [= Hlx <- Hlz]. apply Hne.
    unfold GameWorld.local_coord in Hlx, Hlz.
    apply wrap32_sub_inj in Hlx, Hlz; try done. by subst.
  - by rewrite setBlock_chunk_ne.
Qed.

Lemma world_setBlock_other_block_witness :
  let w := GameWorld.setBlock 5 (GameWorld.new "S1") 16777230 10 0 3 in
  (GameWorld.getBlock (GameWorld.setBlock 9 w 16777231 10 0 5) 16777230 10 0).1 = 3.
Proof.
  intros w.
  rewrite (world_setBlock_other_block 9 w 16777231 10 0 5 16777230 10 0).
  - vm_compute. reflexivity.
  - unfold is_int. lia.
  - unfold is_int. lia.
  - unfold is_int. lia.
  - unfold is_int. lia.
  - intros [=].
Defined.

(** X8. In a world whose chunks have their full block vectors, a block
    written through the world is read back exactly when the local
    coordinates the world computes fall inside the chunk; otherwise the
    write is lost and the read returns 0. *)
Theorem world_setBlock_getBlock_exact now w x y z ty :
  world_ok w →
  let lx := GameWorld.local_coord x (GameWorld.chunk_coord x) in
  let lz := GameWorld.local_coord z (GameWorld.chunk_coord z) in
  (GameWorld.getBlock (GameWorld.setBlock now w x y z ty) x y z).1
  = if WorldChunk.out_of_range lx y lz then 0 else ty.
Proof.
  intros Hok lx lz. rewrite getBlock_value.
  pose proof (setBlock_chunk now w x y z ty) as Hset. cbv zeta in Hset.
  rewrite Hset. cbn [default from_option]. fold lx lz.
  destruct (WorldChunk.out_of_range lx y lz) eqn:Hr.
  - unfold WorldChunk.getBlock. by rewrite Hr.
  - apply getBlock_setBlock_same; [| by apply out_of_range_false].
    destruct (GameWorld.chunks w !! _) as [c |] eqn:Hc; simpl.
    + by apply (Hok _ _ Hc).
    + apply wf_new.
Qed.

Lemma world_setBlock_getBlock_exact_witness :
  (GameWorld.getBlock (GameWorld.setBlock 9 (GameWorld.new "S1") (-17) 255 40 6)
                      (-17) 255 40).1 = 6.
Proof.
  rewrite (world_setBlock_getBlock_exact 9 (GameWorld.new "S1") (-17) 255 40 6).
  - reflexivity.
  - intros id c. unfold GameWorld.new. cbn [GameWorld.chunks].
    rewrite lookup_empty. discriminate.
Defined.

(** X9. For world coordinates of magnitude below [2^24] and [y] in
    [0, 256), in a world whose chunks have their full block vectors: the
    chunk coordinate is the floor of [x / 16], also for negative [x], the
    local coordinate lies in [0, 16), and a block written through the
    world is read back. *)
Theorem world_roundtrip_within_24_bits now w x y z ty :
  world_ok w →
  Z.abs x < 2 ^ 24 → Z.abs z < 2 ^ 24 → 0 ≤ y < 256 →
  GameWorld.chunk_coord x = x `div` 16
  ∧ 0 ≤ GameWorld.local_coord x (GameWorld.chunk_coord x) < 16
  ∧ (GameWorld.getBlock (GameWorld.setBlock now w x y z ty) x y z).1 = ty.
Proof.
  intros Hok. apply world_setBlock_getBlock_24bit.
  intros id c Hc. by apply (Hok id c Hc).
Qed.

Lemma world_roundtrip_within_24_bits_witness :
  GameWorld.chunk_coord (-16777215) = (-16777215) `div` 16
  ∧ 0 ≤ GameWorld.local_coord (-16777215) (GameWorld.chunk_coord (-16777215)) < 16
  ∧ (GameWorld.getBlock
       (GameWorld.setBlock 9 (GameWorld.new "S1") (-16777215) 0 16777215 4)
       (-16777215) 0 16777215).1 = 4.
Proof.
  apply (world_roundtrip_within_24_bits 9 (GameWorld.new "S1") (-16777215) 0 16777215 4).
  - intros id c. unfold GameWorld.new. cbn [GameWorld.chunks].
    rewrite lookup_empty. discriminate.
  - lia.
  - lia.
  - lia.
Defined.

End world_more.

(** ** GameWorld: invariants and queries *)

Section world_queries.

Implicit Types (w : GameWorld.t) (c : WorldChunk.t) (x y z : Z).

Lemma chunk_ok_new cx cz :
  WorldChunk.wf (WorldChunk.new cx cz)
  ∧ WorldChunk.getChunkId (WorldChunk.new cx cz) = GameWorld.chunk_key cx cz.
Proof. split; [apply wf_new | done]. Qed.

Lemma chunk_ok_setBlock now c x y z ty id :
  WorldChunk.wf c ∧ WorldChunk.getChunkId c = id →
  WorldChunk.wf (WorldChunk.setBlock now c x y z ty)
  ∧ WorldChunk.getChunkId (WorldChunk.setBlock now c x y z ty) = id.
Proof.
  intros [Hwf <-]. split; [by apply wf_setBlock |].
  unfold WorldChunk.getChunkId, WorldChunk.setBlock.
  by destruct (WorldChunk.out_of_range x y z).
Qed.

Lemma world_ok_setBlock now w x y z ty :
  world_ok w → world_ok (GameWorld.setBlock now w x y z ty).
Proof.
  intros Hok id' c' Hc'.
  set (cx := GameWorld.chunk_coord x). set (cz := GameWorld.chunk_coord z).
  destruct (decide (id' = GameWorld.chunk_key cx cz)) as [-> | Hne].
  - pose proof (setBlock_chunk now w x y z ty) as Hset. cbv zeta in Hset.
    fold cx cz in Hset. rewrite Hset in Hc'. injection Hc' as <-.
    apply chunk_ok_setBlock.
    destruct (GameWorld.chunks w !! _) as [c |] eqn:Hc; simpl.
    + by apply (Hok _ _ Hc).
    + apply chunk_ok_new.
  - rewrite setBlock_chunk_ne in Hc' by done. by apply (Hok _ _ Hc').
Qed.

Lemma world_ok_getBlock w x y z :
  world_ok w → world_ok (GameWorld.getBlock w x y z).2.
Proof.
  intros Hok. unfold world_ok.
  destruct (getBlock_world w x y z) as [-> _].
  destruct (GameWorld.chunks w !! _) eqn:Hc; [done |].
  apply map_Forall_insert_2; [apply chunk_ok_new | done].
Qed.

(** X10. After any sequence of block reads and writes on a new world, every
    stored chunk has its 65536 cells and is stored under its own chunk
    id. *)
Theorem world_ok_calls (id : string) (calls : list world_call) :
  world_ok (foldl world_step (GameWorld.new id) calls).
Proof.
  assert (Hnew : world_ok (GameWorld.new id)) by apply map_Forall_empty.
  revert Hnew. generalize (GameWorld.new id).
  induction calls as [| call calls IH]; intros w Hok; simpl; [done |].
  apply IH. destruct call; simpl.
  - by apply world_ok_setBlock.
  - by apply world_ok_getBlock.
Qed.

(** X11. A read through the world only ever adds the chunk it looked at:
    every chunk stored before is stored unchanged afterwards, reading the
    same coordinate again returns the same value and changes nothing more,
    and no later read of any coordinate returns a different value because
    of it. *)
Theorem world_getBlock_only_adds w x y z :
  let r := GameWorld.getBlock w x y z in
  GameWorld.chunks w ⊆ GameWorld.chunks r.2
  ∧ GameWorld.getBlock r.2 x y z = r
  ∧ ∀ x' y' z',
      (GameWorld.getBlock r.2 x' y' z').1 = (GameWorld.getBlock w x' y' z').1.
Proof.
  intros r. subst r.
  set (cx := GameWorld.chunk_coord x). set (cz := GameWorld.chunk_coord z).
  destruct (GameWorld.chunks w !! GameWorld.chunk_key cx cz) as [c |] eqn:Hc.
  - assert (Hr : GameWorld.getBlock w x y z
                 = (WorldChunk.getBlock c (GameWorld.local_coord x cx) y
                      (GameWorld.local_coord z cz), w))
      by by apply getBlock_chunk.
    rewrite Hr. cbn [snd]. rewrite Hr. done.
  - pose proof (getBlock_world w x y z) as [Hchunks _]. cbv zeta in Hchunks.
    fold cx cz in Hchunks. rewrite Hc in Hchunks.
    pose proof (getBlock_value w x y z) as Hval. cbv zeta in Hval.
    fold cx cz in Hval. rewrite Hc in Hval. cbn [default from_option] in Hval.
    set (r := GameWorld.getBlock w x y z) in *.
    split; [rewrite Hchunks; by apply insert_subseteq |]. split.
    + rewrite (getBlock_chunk r.2 x y z (WorldChunk.new cx cz))
        by (rewrite Hchunks; apply lookup_insert_eq).
      fold cx cz. rewrite <-Hval. by destruct r.
    + intros x' y' z'. rewrite !getBlock_value. rewrite Hchunks.
      set (cx' := GameWorld.chunk_coord x'). set (cz' := GameWorld.chunk_coord z').
      destruct (decide (GameWorld.chunk_key cx cz = GameWorld.chunk_key cx' cz'))
        as [Hid | Hid].
      * rewrite <-Hid, lookup_insert_eq, Hc.
        destruct (chunk_key_eq _ _ _ _ Hid) as [-> ->]. done.
      * by rewrite lookup_insert_ne.
Qed.

Lemma getModifiedChunks_elem w since id :
  id ∈ GameWorld.getModifiedChunks w since
  ↔ ∃ c, GameWorld.chunks w !! id = Some c ∧ since < WorldChunk.getLastModified c.
Proof.
  unfold GameWorld.getModifiedChunks. rewrite list_elem_of_fmap. split.
  - intros ([id' c] & -> & [Hmod Hc%elem_of_map_to_list]%list_elem_of_filter).
    simpl in *. exists c. split; [done |]. apply Is_true_true in Hmod. lia.
  - intros (c & Hc & Hmod). exists (id, c). split; [done |].
    apply list_elem_of_filter. split; [| by apply elem_of_map_to_list].
    simpl. apply Is_true_true. lia.
Qed.

(** X12. [getModifiedChunks(since)] lists, each once, exactly the ids of
    the stored chunks whose [lastModified] is strictly greater than
    [since]. *)
Theorem getModifiedChunks_spec w since :
  NoDup (GameWorld.getModifiedChunks w since)
  ∧ ∀ id, id ∈ GameWorld.getModifiedChunks w since
          ↔ ∃ c, GameWorld.chunks w !! id = Some c
                 ∧ since < WorldChunk.getLastModified c.
Proof.
  split; [| apply getModifiedChunks_elem].
  unfold GameWorld.getModifiedChunks.
  eapply sublist_NoDup; [apply (NoDup_fst_map_to_list (GameWorld.chunks w)) |].
  apply fmap_sublist, sublist_filter.
Qed.

(** X13. Within 24 bits, an in-range write at clock reading [now] puts the
    chunk of the written block, ["<floor(x/16)>:<floor(z/16)>"], into
    [getModifiedChunks(since)] for every [since] before [now]. *)
Theorem getModifiedChunks_after_write now w x y z ty since :
  Z.abs x < 2 ^ 24 → Z.abs z < 2 ^ 24 → 0 ≤ y < 256 → since < now →
  pretty (x `div` 16) +:+ ":" +:+ pretty (z `div` 16)
  ∈ GameWorld.getModifiedChunks (GameWorld.setBlock now w x y z ty) since.
Proof.
  intros Hx Hz Hy Hsince. apply getModifiedChunks_elem.
  pose proof (setBlock_chunk now w x y z ty) as Hset. cbv zeta in Hset.
  rewrite (chunk_coord_exact x Hx), (chunk_coord_exact z Hz) in Hset.
  eexists. split; [exact Hset |].
  destruct (local_coord_exact x Hx) as [-> Hlx].
  destruct (local_coord_exact z Hz) as [-> Hlz].
  unfold WorldChunk.getLastModified, WorldChunk.setBlock.
  rewrite (proj2 (out_of_range_false _ _ _)); [done |].
  unfold in_range, CHUNK_SIZE. lia.
Qed.

Lemma getModifiedChunks_after_write_witness :
  "-1:62" ∈ GameWorld.getModifiedChunks
              (GameWorld.setBlock 9 (GameWorld.new "S1") (-1) 10 1000 5) 8.
Proof.
  apply (getModifiedChunks_after_write 9 (GameWorld.new "S1") (-1) 10 1000 5 8); lia.
Defined.

(** X14. A read never makes a chunk look modified: for [since >= 0],
    [getModifiedChunks(since)] has the same members after a [getBlock] as
    before, even when the read created a chunk. *)
Theorem getModifiedChunks_after_read w x y z since :
  0 ≤ since →
  ∀ id, id ∈ GameWorld.getModifiedChunks (GameWorld.getBlock w x y z).2 since
        ↔ id ∈ GameWorld.getModifiedChunks w since.
Proof.
  intros Hsince id. rewrite !getModifiedChunks_elem.
  destruct (getBlock_world w x y z) as [-> _].
  destruct (GameWorld.chunks w !! _) eqn:Hc; [done |].
  split.
  - intros (c & [[<- <-] | [Hne Hc']]%lookup_insert_Some & Hmod).
    + unfold WorldChunk.getLastModified, WorldChunk.new in Hmod.
      cbn [WorldChunk.lastModified] in Hmod. lia.
    + eauto.
  - intros (c & Hc' & Hmod). exists c. split; [| done].
    rewrite lookup_insert_ne; [done |]. intros <-. congruence.
Qed.

Lemma getModifiedChunks_after_read_witness :
  "0:0" ∈ GameWorld.getModifiedChunks
            (GameWorld.getBlock (GameWorld.new "S1") 5 5 5).2 0
  ↔ "0:0" ∈ GameWorld.getModifiedChunks (GameWorld.new "S1") 0.
Proof.
  apply (getModifiedChunks_after_read (GameWorld.new "S1") 5 5 5 0). lia.
Defined.

(** X15. In a world whose chunks are stored whole and under their own ids,
    [serializeChunk(id)] returns ["{}"] exactly when no chunk is stored
    under [id]; otherwise it returns the compact text of an object whose
    [chunkId] member is [id], whose [lastModified] member is the chunk's
    and whose [blocks] array decodes to the chunk's cells. *)
Theorem serializeChunk_spec w id :
  world_ok w →
  (GameWorld.serializeChunk w id = Some EMPTY_BLOB ↔ GameWorld.chunks w !! id = None)
  ∧ ∀ c, GameWorld.chunks w !! id = Some c →
         ∃ v entries,
           GameWorld.serializeChunk w id = Some (WriteCompact v)
           ∧ json_field "chunkId" v = Some (JString id)
           ∧ json_field "lastModified" v = Some (JInteger (WorldChunk.lastModified c))
           ∧ json_blocks v = Some entries
           ∧ rle_decode entries = WorldChunk.blocks c.
Proof.
  intros Hok. unfold GameWorld.serializeChunk.
  destruct (GameWorld.chunks w !! id) as [c |] eqn:Hc.
  - destruct (Hok _ _ Hc) as [Hwf Hid].
    destruct (serialize_entries c Hwf) as (b0 & rest & v & Hbs & Hv & Hs & Hb).
    split.
    + split; [| done]. rewrite Hs. intros Hblob.
      apply (inj Some) in Hblob. exfalso.
      by apply (serialize_not_empty c _ Hs).
    + intros c' [= <-]. exists v, (runs rest b0 1).
      split; [done |].
      assert (Hfields : json_field "chunkId" v = Some (JString id)
                        ∧ json_field "lastModified" v
                          = Some (JInteger (WorldChunk.lastModified c))).
      { unfold WorldChunk.serialize_json in Hv.
        destruct (WorldChunk.compress (WorldChunk.blocks c)); [| done].
        apply (inj Some) in Hv. rewrite <-Hv, <-Hid. done. }
      destruct Hfields as [Hf1 Hf2].
      split; [done |]. split; [done |]. split; [done |].
      rewrite runs_decode by lia. by rewrite Hbs.
  - split; [done |]. intros c [=].
Qed.

Lemma serializeChunk_spec_witness :
  let w := GameWorld.setBlock 9 (GameWorld.new "S1") (-1) 10 (-1) 5 in
  GameWorld.serializeChunk w "0:0" = Some EMPTY_BLOB
  ∧ ∃ v entries,
      GameWorld.serializeChunk w "-1:-1" = Some (WriteCompact v)
      ∧ json_field "chunkId" v = Some (JString "-1:-1")
      ∧ json_field "lastModified" v = Some (JInteger 9)
      ∧ json_blocks v = Some entries
      ∧ rle_decode entries
        = WorldChunk.blocks (WorldChunk.setBlock 9 (WorldChunk.new (-1) (-1)) 15 10 15 5).
Proof.
  intros w.
  assert (Hok : world_ok w).
  { apply world_ok_setBlock, map_Forall_empty. }
  split.
  - apply (serializeChunk_spec w "0:0" Hok). vm_compute. reflexivity.
  - apply (proj2 (serializeChunk_spec w "-1:-1" Hok)
                 (WorldChunk.setBlock 9 (WorldChunk.new (-1) (-1)) 15 10 15 5)).
    apply (setBlock_chunk 9 (GameWorld.new "S1") (-1) 10 (-1) 5).
Defined.

End world_queries.

(** ** Player: calls in sequence *)

Section player_more.

Implicit Types (p : Player.t) (c : player_call) (calls : list player_call).

Lemma player_step_keeps p c :
  Player.playerId (player_step p c) = Player.playerId p
  ∧ Player.playerName (player_step p c) = Player.playerName p
  ∧ Player.unlockedAreas p ⊆ Player.unlockedAreas (player_step p c)
  ∧ Player.learnedAstras p ⊆ Player.learnedAstras (player_step p c)
  ∧ Player.learnedSiddhis p ⊆ Player.learnedSiddhis (player_step p c).
Proof. destruct c; simpl; split_and!; try done; apply union_subseteq_r. Qed.

Lemma player_step_health p c :
  0 ≤ Player.health p ≤ 100 → 0 ≤ Player.health (player_step p c) ≤ 100.
Proof. destruct c; simpl; lia. Qed.

(** X16. After any sequence of member calls on a newly constructed player,
    the player still has the id and name it was constructed with, its
    health lies in [0, 100] and ["starting_area"] is still unlocked. *)
Theorem player_calls_invariant (id name : string) (now : Z) calls :
  let p := foldl player_step (Player.new id name now) calls in
  Player.getPlayerId p = id
  ∧ Player.getPlayerName p = name
  ∧ 0 ≤ Player.getHealth p ≤ 100
  ∧ "starting_area" ∈ Player.unlockedAreas p.
Proof.
  intros p. subst p.
  unfold Player.getPlayerId, Player.getPlayerName, Player.getHealth.
  induction calls as [| c calls IH] using rev_ind.
  - simpl. split_and!; [done | done | lia | lia | by apply elem_of_singleton].
  - rewrite foldl_app. cbn [foldl].
    destruct IH as (Hid & Hname & Hhealth & Harea).
    destruct (player_step_keeps (foldl player_step (Player.new id name now) calls) c)
      as (-> & -> & Hareas & _).
    pose proof (player_step_health _ c Hhealth).
    split_and!; [done | done | lia | lia | by apply Hareas].
Qed.

(** X17. The progression sets only grow: whatever is unlocked or learned
    stays so through any sequence of member calls. *)
Theorem progression_never_shrinks p calls :
  Player.unlockedAreas p ⊆ Player.unlockedAreas (foldl player_step p calls)
  ∧ Player.learnedAstras p ⊆ Player.learnedAstras (foldl player_step p calls)
  ∧ Player.learnedSiddhis p ⊆ Player.learnedSiddhis (foldl player_step p calls).
Proof.
  revert p. induction calls as [| c calls IH]; intros p; simpl; [done |].
  destruct (IH (player_step p c)) as (H1 & H2 & H3).
  destruct (player_step_keeps p c) as (_ & _ & K1 & K2 & K3).
  split_and!; by etrans.
Qed.

(** X18. Unlocking an area or learning an astra or siddhi records it,
    doing it twice is the same as doing it once, and the order of two
    additions does not matter. *)
Theorem progression_insert_is_set_insert p (a b : string) :
  (a ∈ Player.unlockedAreas (PlayerMembers.addUnlockedArea p a)
   ∧ PlayerMembers.addUnlockedArea (PlayerMembers.addUnlockedArea p a) a
     = PlayerMembers.addUnlockedArea p a
   ∧ PlayerMembers.addUnlockedArea (PlayerMembers.addUnlockedArea p a) b
     = PlayerMembers.addUnlockedArea (PlayerMembers.addUnlockedArea p b) a)
  ∧ (a ∈ Player.learnedAstras (PlayerMembers.addLearnedAstra p a)
     ∧ PlayerMembers.addLearnedAstra (PlayerMembers.addLearnedAstra p a) a
       = PlayerMembers.addLearnedAstra p a
     ∧ PlayerMembers.addLearnedAstra (PlayerMembers.addLearnedAstra p a) b
       = PlayerMembers.addLearnedAstra (PlayerMembers.addLearnedAstra p b) a)
  ∧ (a ∈ Player.learnedSiddhis (PlayerMembers.addLearnedSiddhi p a)
     ∧ PlayerMembers.addLearnedSiddhi (PlayerMembers.addLearnedSiddhi p a) a
       = PlayerMembers.addLearnedSiddhi p a
     ∧ PlayerMembers.addLearnedSiddhi (PlayerMembers.addLearnedSiddhi p a) b
       = PlayerMembers.addLearnedSiddhi (PlayerMembers.addLearnedSiddhi p b) a).
Proof.
  unfold PlayerMembers.addUnlockedArea, PlayerMembers.addLearnedAstra,
    PlayerMembers.addLearnedSiddhi. simpl.
  assert (Hin : ∀ X : gset string, a ∈ {[a]} ∪ X)
    by (intros X; by apply elem_of_union_l, elem_of_singleton).
  assert (Hidem : ∀ X : gset string, {[a]} ∪ ({[a]} ∪ X) = {[a]} ∪ X)
    by (intros X; by rewrite (assoc_L (∪)), union_idemp_L).
  assert (Hcomm : ∀ X : gset string, {[b]} ∪ ({[a]} ∪ X) = {[a]} ∪ ({[b]} ∪ X))
    by (intros X; by rewrite !(assoc_L (∪)), (comm_L (∪) {[b]} {[a]})).
  split_and!; try apply Hin; by rewrite ?Hidem, ?Hcomm.
Qed.

Lemma player_step_lastActivity p c :
  Player.lastActivity (player_step p c)
  = default (Player.lastActivity p) (refresh_time c).
Proof. destruct c as [| | ? []| | | | | |]; done. Qed.

End player_more.

(** ** GameSession: the roster *)

Section roster_more.

Implicit Types (s : GameSession.t) (id name : string) (p : Player.t).

Lemma session_eq s1 s2 :
  GameSession.sessionId s1 = GameSession.sessionId s2 →
  GameSession.gameMode s1 = GameSession.gameMode s2 →
  GameSession.world s1 = GameSession.world s2 →
  GameSession.players s1 = GameSession.players s2 →
  GameSession.startTime s1 = GameSession.startTime s2 →
  s1 = s2.
Proof. destruct s1, s2. simpl. by intros -> -> -> -> ->. Qed.

Lemma removePlayer_fields s id :
  GameSession.sessionId (GameSession.removePlayer s id) = GameSession.sessionId s
  ∧ GameSession.gameMode (GameSession.removePlayer s id) = GameSession.gameMode s
  ∧ GameSession.world (GameSession.removePlayer s id) = GameSession.world s
  ∧ GameSession.startTime (GameSession.removePlayer s id) = GameSession.startTime s.
Proof. unfold GameSession.removePlayer. by destruct (GameSession.players s !! id). Qed.

Lemma update_fields now s :
  GameSession.sessionId (GameSession.update now s) = GameSession.sessionId s
  ∧ GameSession.gameMode (GameSession.update now s) = GameSession.gameMode s
  ∧ GameSession.world (GameSession.update now s) = GameSession.world s
  ∧ GameSession.startTime (GameSession.update now s) = GameSession.startTime s.
Proof.
  unfold GameSession.update. generalize (GameSession.inactivePlayers now s).
  intros ids. revert s. induction ids as [| j ids IH]; intros s; simpl; [done |].
  destruct (IH (GameSession.removePlayer s j)) as (-> & -> & -> & ->).
  apply removePlayer_fields.
Qed.

(** X19. [removePlayer(id)] leaves no player under [id] and every other
    player as it was; the count drops by one when [id] was in the roster,
    and the session is unchanged when it was not. *)
Theorem removePlayer_spec s id :
  let s' := GameSession.removePlayer s id in
  GameSession.getPlayer s' id = None
  ∧ (∀ other, other ≠ id →
       GameSession.getPlayer s' other = GameSession.getPlayer s other)
  ∧ (is_Some (GameSession.getPlayer s id) →
       S (GameSession.getPlayerCount s') = GameSession.getPlayerCount s)
  ∧ (GameSession.getPlayer s id = None → s' = s).
Proof.
  intros s'. subst s'.
  unfold GameSession.getPlayer, GameSession.getPlayerCount.
  rewrite removePlayer_players. split_and!.
  - apply lookup_delete_eq.
  - intros other Hne. by apply lookup_delete_ne.
  - intros [p Hp]. rewrite <-(insert_delete_id _ id p Hp) at 2.
    by rewrite map_size_insert_None by apply lookup_delete_eq.
  - intros Hnone. unfold GameSession.removePlayer. by rewrite Hnone.
Qed.

Lemma removePlayer_spec_witness :
  S (GameSession.getPlayerCount (GameSession.removePlayer two_player_session "idle"))
  = GameSession.getPlayerCount two_player_session
  ∧ GameSession.removePlayer two_player_session "nobody" = two_player_session.
Proof.
  destruct (removePlayer_spec two_player_session "idle") as (_ & _ & Hcount & _).
  destruct (removePlayer_spec two_player_session "nobody") as (_ & _ & _ & Hsame).
  split.
  - apply Hcount. vm_compute. eexists. reflexivity.
  - apply Hsame. vm_compute. reflexivity.
Defined.

(** X20. Adding a player under an id that is not in a roster with room and
    removing it again gives back the session as it was. *)
Theorem addPlayer_removePlayer now s id name :
  Z.of_nat (size (GameSession.players s)) < MAX_PLAYERS →
  GameSession.getPlayer s id = None →
  GameSession.removePlayer (GameSession.addPlayer now s id name).2 id = s.
Proof.
  unfold GameSession.getPlayer. intros Hroom Hnone.
  rewrite addPlayer_room by done. cbn [snd].
  destruct (removePlayer_fields
              (GameSession.with_players s
                 (<[id := Player.new id name now]> (GameSession.players s))) id)
    as (H1 & H2 & H3 & H4).
  apply session_eq; try done.
  rewrite removePlayer_players. cbn [GameSession.with_players GameSession.players].
  by apply delete_insert_id.
Qed.

Lemma addPlayer_removePlayer_witness :
  GameSession.removePlayer
    (GameSession.addPlayer 200 one_player_session "p2" "Bhima").2 "p2"
  = one_player_session.
Proof.
  apply (addPlayer_removePlayer 200 one_player_session "p2" "Bhima").
  - vm_compute. reflexivity.
  - vm_compute. reflexivity.
Defined.

(** X21. [getPlayerIds()] lists every id of the roster exactly once: it
    has no duplicates, as many entries as [getPlayerCount()], and contains
    an id exactly when [getPlayer] finds a player under it. *)
Theorem getPlayerIds_spec s :
  NoDup (GameSession.getPlayerIds s)
  ∧ length (GameSession.getPlayerIds s) = GameSession.getPlayerCount s
  ∧ ∀ id, id ∈ GameSession.getPlayerIds s ↔ is_Some (GameSession.getPlayer s id).
Proof.
  unfold GameSession.getPlayerIds, GameSession.getPlayerCount, GameSession.getPlayer.
  split_and!.
  - apply NoDup_fst_map_to_list.
  - by rewrite length_fmap, length_map_to_list.
  - intros id. rewrite list_elem_of_fmap. split.
    + intros ([j p] & -> & Hp%elem_of_map_to_list). eauto.
    + intros [p Hp]. exists (id, p). split; [done |]. by apply elem_of_map_to_list.
Qed.

End roster_more.

(** ** GameSession: ticks *)

Section ticks.

Implicit Types (s : GameSession.t) (id name : string) (p : Player.t).

Lemma update_lookup_Some now s id p :
  GameSession.getPlayer (GameSession.update now s) id = Some p
  ↔ GameSession.getPlayer s id = Some p ∧ now - Player.getLastActivity p ≤ 300.
Proof.
  rewrite update_lookup. unfold GameSession.getPlayer, Player.getLastActivity.
  destruct (GameSession.players s !! id) as [q |]; simpl.
  - case_decide; split.
    + intros [=].
    + intros [[= ->] ?]. lia.
    + intros [= ->]. split; [done | lia].
    + by intros [? _].
  - split; [intros [=] | by intros [? _]].
Qed.

Lemma update_subseteq now s :
  GameSession.players (GameSession.update now s) ⊆ GameSession.players s.
Proof.
  apply map_subseteq_spec. intros id p Hp.
  by apply (update_lookup_Some now s id p).
Qed.

(** X22. [update()] keeps exactly the players whose last activity is at
    most 300 seconds old, a player idle for exactly 300 seconds included,
    and keeps them unchanged; the player count does not grow, and the
    session id, game mode, world and start time are untouched. *)
Theorem update_spec now s :
  (∀ id p,
     GameSession.getPlayer (GameSession.update now s) id = Some p
     ↔ GameSession.getPlayer s id = Some p ∧ now - Player.getLastActivity p ≤ 300)
  ∧ (GameSession.getPlayerCount (GameSession.update now s)
     ≤ GameSession.getPlayerCount s)%nat
  ∧ GameSession.getSessionId (GameSession.update now s) = GameSession.getSessionId s
  ∧ GameSession.gameMode (GameSession.update now s) = GameSession.gameMode s
  ∧ GameSession.getWorld (GameSession.update now s) = GameSession.getWorld s
  ∧ GameSession.startTime (GameSession.update now s) = GameSession.startTime s.
Proof.
  destruct (update_fields now s) as (H1 & H2 & H3 & H4).
  split; [apply update_lookup_Some |].
  split; [apply map_subseteq_size, update_subseteq | done].
Qed.

Lemma update_spec_witness :
  GameSession.getPlayer (GameSession.update 1300 two_player_session) "idle"
  = Some (Player.new "idle" "Karna" 1000).
Proof.
  apply (proj1 (update_spec 1300 two_player_session)). split.
  - vm_compute. reflexivity.
  - simpl. lia.
Defined.

(** X23. A later tick subsumes an earlier one: running [update()] at time
    [t1] and then at [t2 >= t1] leaves the same session as running it at
    [t2] alone; in particular a second [update()] at the same time changes
    nothing. *)
Theorem update_update (t1 t2 : Z) s :
  t1 ≤ t2 →
  GameSession.update t2 (GameSession.update t1 s) = GameSession.update t2 s.
Proof.
  intros Ht.
  destruct (update_fields t2 (GameSession.update t1 s)) as (H1 & H2 & H3 & H4).
  destruct (update_fields t1 s) as (K1 & K2 & K3 & K4).
  destruct (update_fields t2 s) as (L1 & L2 & L3 & L4).
  apply session_eq; try congruence.
  apply map_eq. intros id. apply option_eq. intros p.
  change (GameSession.getPlayer (GameSession.update t2 (GameSession.update t1 s)) id
          = Some p
          ↔ GameSession.getPlayer (GameSession.update t2 s) id = Some p).
  rewrite !update_lookup_Some. intuition lia.
Qed.

Lemma update_update_witness :
  GameSession.update 1301 (GameSession.update 1250 two_player_session)
  = GameSession.update 1301 two_player_session.
Proof. apply (update_update 1250 1301 two_player_session). lia. Defined.

(** X24. When no player has been idle for more than 300 seconds,
    [update()] leaves the session exactly as it was. *)
Theorem update_nobody_idle now s :
  (∀ id p, GameSession.getPlayer s id = Some p →
           now - Player.getLastActivity p ≤ 300) →
  GameSession.update now s = s.
Proof.
  intros Hlive. destruct (update_fields now s) as (H1 & H2 & H3 & H4).
  apply session_eq; try done.
  apply map_eq. intros id. apply option_eq. intros p.
  change (GameSession.getPlayer (GameSession.update now s) id = Some p
          ↔ GameSession.getPlayer s id = Some p).
  rewrite update_lookup_Some. split; [by intros [? _] |].
  intros Hp. split; [done | by eapply Hlive].
Qed.

Lemma update_nobody_idle_witness :
  GameSession.update 1300 two_player_session = two_player_session.
Proof.
  apply (update_nobody_idle 1300 two_player_session).
  intros id p. unfold GameSession.getPlayer, two_player_session.
  rewrite !addPlayer_room by (vm_compute; reflexivity).
  cbn [snd GameSession.with_players GameSession.players GameSession.new].
  intros [[<- <-] | [_ [[<- <-] | [_ Hp]]%lookup_insert_Some]]%lookup_insert_Some.
  - simpl. lia.
  - simpl. lia.
  - by rewrite lookup_empty in Hp.
Defined.

(** X25. A call on the player behind [getPlayer(id)] followed by
    [update()]: the player is evicted exactly when the last activity the
    call leaves behind is more than 300 seconds old. [setPosition],
    [setConnected(true)] and [updateActivity] restart the idle clock;
    [setConnected(false)], [setHealth] and the other members do not. *)
Theorem call_then_update now s id p (c : player_call) :
  GameSession.getPlayer s id = Some p →
  Player.getLastActivity (player_step p c)
  = default (Player.getLastActivity p) (refresh_time c)
  ∧ GameSession.getPlayer (GameSession.update now (call_player s id c)) id
    = if decide (300 < now - default (Player.getLastActivity p) (refresh_time c))
      then None else Some (player_step p c).
Proof.
  unfold GameSession.getPlayer, Player.getLastActivity. intros Hp.
  split; [apply player_step_lastActivity |].
  pose proof (update_lookup now (call_player s id c) id) as Hup.
  unfold GameSession.getPlayer in Hup. rewrite Hup.
  unfold call_player. cbn [GameSession.with_players GameSession.players].
  rewrite lookup_alter_eq, Hp. simpl.
  by rewrite player_step_lastActivity.
Qed.

Lemma call_then_update_witness :
  GameSession.getPlayer
    (GameSession.update 1301
       (call_player two_player_session "idle"
                    (CallSetPosition 1200 (inject_Z 1) (inject_Z 2) (inject_Z 3))))
    "idle"
  = Some (Player.setPosition 1200 (Player.new "idle" "Karna" 1000)
                             (inject_Z 1) (inject_Z 2) (inject_Z 3))
  ∧ GameSession.getPlayer
      (GameSession.update 1301
         (call_player two_player_session "idle" (CallSetConnected 1200 false)))
      "idle"
    = None.
Proof.
  assert (Hidle : GameSession.getPlayer two_player_session "idle"
                  = Some (Player.new "idle" "Karna" 1000)) by (vm_compute; reflexivity).
  split.
  - apply (call_then_update 1301 two_player_session "idle" _
             (CallSetPosition 1200 (inject_Z 1) (inject_Z 2) (inject_Z 3)) Hidle).
  - apply (call_then_update 1301 two_player_session "idle" _
             (CallSetConnected 1200 false) Hidle).
Defined.

(** X26. Eviction frees capacity: when [update()] runs on a roster of at
    most 16 players one of whom has been idle for more than 300 seconds,
    the next [addPlayer] is accepted. *)
Theorem update_frees_capacity now s id p (now' : Z) (id' name : string) :
  Z.of_nat (size (GameSession.players s)) ≤ MAX_PLAYERS →
  GameSession.getPlayer s id = Some p →
  now - Player.getLastActivity p > 300 →
  (GameSession.addPlayer now' (GameSession.update now s) id' name).1 = true.
Proof.
  unfold GameSession.getPlayer. intros Hcap Hp Hidle.
  rewrite addPlayer_room; [done |].
  assert (Hsub : GameSession.players (GameSession.update now s)
                 ⊆ delete id (GameSession.players s)).
  { apply map_subseteq_spec. intros j q Hq.
    apply (update_lookup_Some now s j q) in Hq as [Hq Hlive].
    unfold GameSession.getPlayer in Hq.
    rewrite lookup_delete_ne; [done |]. intros <-.
    rewrite Hp in Hq. injection Hq as <-. lia. }
  apply map_subseteq_size in Hsub.
  rewrite <-(insert_delete_id _ id p Hp) in Hcap.
  rewrite map_size_insert_None in Hcap by apply lookup_delete_eq. lia.
Qed.

Lemma update_frees_capacity_witness :
  (GameSession.addPlayer 500 (GameSession.update 500 full_session) "late" "Drona").1
  = true.
Proof.
  apply (update_frees_capacity 500 full_session "p3" (Player.new "p3" "guest" 100)).
  - vm_compute. discriminate.
  - vm_compute. reflexivity.
  - simpl. lia.
Defined.

Lemma size_alter (f : Player.t → Player.t) id (m : gmap string Player.t) :
  size (alter f id m) = size m.
Proof. by rewrite <-!size_dom, dom_alter_L. Qed.

Lemma roster_ok_step s (c : session_call) : roster_ok s → roster_ok (session_step s c).
Proof.
  intros [Hcap Hids].
  destruct c as [now id name | id | now | id c]; simpl.
  - destruct (Z.le_gt_cases MAX_PLAYERS (Z.of_nat (size (GameSession.players s))))
      as [Hfull | Hroom].
    + by rewrite addPlayer_full.
    + rewrite addPlayer_room by done. split; simpl.
      * destruct (GameSession.players s !! id) as [old |] eqn:Hold.
        -- by rewrite (size_insert_Some _ _ _ old).
        -- rewrite map_size_insert_None by done. lia.
      * by apply map_Forall_insert_2.
  - split; rewrite removePlayer_players.
    + pose proof (map_size_delete id (GameSession.players s)).
      destruct (GameSession.players s !! id);
        pose proof (map_subseteq_size _ _ (delete_subseteq (GameSession.players s) id));
        lia.
    + by apply map_Forall_delete.
  - split.
    + pose proof (map_subseteq_size _ _ (update_subseteq now s)). lia.
    + intros j p Hp. apply (Hids j p).
      by apply (lookup_weaken _ _ _ _ Hp), update_subseteq.
  - unfold call_player. split; simpl.
    + by rewrite size_alter.
    + intros j p. rewrite lookup_alter. case_decide as Hj.
      * subst j. destruct (GameSession.players s !! id) as [q |] eqn:Hq; [| done].
        simpl. intros [= <-]. destruct (player_step_keeps q c) as (-> & _).
        by apply (Hids id q).
      * apply Hids.
Qed.

(** X27. After any sequence of [addPlayer], [removePlayer], [update] and
    player member calls on a new session, the roster holds at most 16
    players and every player sits under its own player id. *)
Theorem roster_ok_calls (id mode : string) (now : Z) (calls : list session_call) :
  let s := foldl session_step (GameSession.new id mode now) calls in
  Z.of_nat (GameSession.getPlayerCount s) ≤ MAX_PLAYERS
  ∧ ∀ pid p, GameSession.getPlayer s pid = Some p → Player.getPlayerId p = pid.
Proof.
  intros s. change (roster_ok s). subst s.
  assert (Hnew : roster_ok (GameSession.new id mode now)).
  { split; [done | apply map_Forall_empty]. }
  revert Hnew. generalize (GameSession.new id mode now).
  induction calls as [| c calls IH]; intros s Hok; simpl; [done |].
  by apply IH, roster_ok_step.
Qed.

End ticks.

(** ** Lifecycle: callbacks in sequence *)

Section lifecycle_more.

Import Lifecycle.

Implicit Types (st : process) (es : list callback).

(** X28. When several game properties are keyed ["gameMode"], the last
    one in the list sets the mode of the installed session. *)
Theorem gameMode_last_property_wins (now : Z) st (sid v : string)
        (pre post : list (string * string)) :
  Forall (λ prop, prop.1 ≠ "gameMode") post →
  ∃ s, g_gameSession
         (onStartGameSession now st
            (mk_descriptor sid (pre ++ ("gameMode", v) :: post))).2 = Some s
       ∧ GameSession.gameMode s = v
       ∧ GameSession.getSessionId s = sid.
Proof.
  intros Hpost. eexists. split; [done |]. split; [| done]. simpl.
  unfold scan_gameMode. rewrite foldl_app. cbn [foldl fst snd].
  rewrite String.eqb_refl. by apply scan_gameMode_absent.
Qed.

Lemma gameMode_last_property_wins_witness :
  ∃ s, g_gameSession
         (onStartGameSession 7 idle
            (mk_descriptor "S3" [("gameMode", "arena"); ("map", "forest");
                                 ("gameMode", "siege"); ("region", "north")])).2
       = Some s
       ∧ GameSession.gameMode s = "siege"
       ∧ GameSession.getSessionId s = "S3".
Proof.
  apply (gameMode_last_property_wins 7 idle "S3" "siege"
           [("gameMode", "arena"); ("map", "forest")] [("region", "north")]).
  repeat constructor. simpl. discriminate.
Defined.

Lemma has_session_handle st (e : callback) :
  has_session (handle st e)
  = match e with
    | OnStartGameSession _ _ => true
    | OnProcessTerminate => false
    | OnHealthCheck | Tick _ => has_session st
    end.
Proof.
  destruct e; try done. unfold has_session, handle, tick. simpl.
  by destruct (g_gameSession st).
Qed.

Lemma emitted_handle st (e : callback) :
  emitted (handle st e) = emitted st ++ signal_of e.
Proof. destruct e; simpl; by rewrite ?app_nil_r. Qed.

(** X29. After any sequence of callbacks and ticks, a session is installed
    exactly when the last start-or-terminate callback was a start (or, if
    there was none, when one was installed before), and the signals sent
    to GameLift are one activation per start and one process-ending per
    terminate, in callback order; health checks and ticks send nothing. *)
Theorem lifecycle_trace st es :
  has_session (foldl handle st es) = active_after (has_session st) es
  ∧ emitted (foldl handle st es) = emitted st ++ flat_map signal_of es.
Proof.
  revert st. induction es as [| e es IH]; intros st.
  - simpl. by rewrite app_nil_r.
  - cbn [foldl flat_map]. destruct (IH (handle st e)) as [-> ->].
    rewrite has_session_handle, emitted_handle, <-app_assoc.
    split; [| done]. unfold active_after. cbn [foldl]. by destruct e.
Qed.

Lemma tick_session st (now : Z) s :
  g_gameSession st = Some s →
  g_gameSession (tick now st) = Some (GameSession.update now s).
Proof. intros Hs. unfold tick. simpl. by rewrite Hs. Qed.

(** X30. Health checks and ticks never replace the session: through any
    run of them an installed session keeps its id, mode, world and start
    time and its roster can only lose players, and a process without a
    session stays exactly as it is; no signal is sent. *)
Theorem ticks_keep_session st es :
  Forall (λ e, keeps_slot e = true) es →
  emitted (foldl handle st es) = emitted st
  ∧ (g_gameSession st = None → foldl handle st es = st)
  ∧ ∀ s, g_gameSession st = Some s →
         ∃ s', g_gameSession (foldl handle st es) = Some s'
               ∧ GameSession.getSessionId s' = GameSession.getSessionId s
               ∧ GameSession.gameMode s' = GameSession.gameMode s
               ∧ GameSession.getWorld s' = GameSession.getWorld s
               ∧ GameSession.startTime s' = GameSession.startTime s
               ∧ GameSession.players s' ⊆ GameSession.players s.
Proof.
  intros Hes. revert st.
  induction Hes as [| e es He _ IH]; intros st.
  - simpl. split; [done |]. split; [done |]. intros s Hs. by exists s.
  - cbn [foldl]. destruct e as [| | | now]; simpl in He; try discriminate.
    { apply (IH st). }
    destruct (IH (handle st (Tick now))) as (Hem & Hnone & Hsome).
    split; [done |]. split.
    + intros Hidle. rewrite Hnone.
      * unfold handle, tick. destruct st as [g em]. simpl in *. by subst g.
      * unfold handle, tick. by rewrite Hidle.
    + intros s Hs.
      destruct (Hsome _ (tick_session st now s Hs))
        as (s' & Hs' & H1 & H2 & H3 & H4 & H5).
      destruct (update_fields now s) as (K1 & K2 & K3 & K4).
      exists s'. split; [done |].
      unfold GameSession.getSessionId, GameSession.getWorld in *.
      split_and!; try congruence.
      etrans; [exact H5 | apply update_subseteq].
Qed.

Lemma ticks_keep_session_witness :
  let st := (onStartGameSession 0 idle (mk_descriptor "S1" [])).2 in
  emitted (foldl handle st [Tick 1; OnHealthCheck; Tick 2]) = emitted st
  ∧ foldl handle idle [Tick 1; OnHealthCheck; Tick 2] = idle.
Proof.
  intros st.
  assert (Hes : Forall (λ e, keeps_slot e = true) [Tick 1; OnHealthCheck; Tick 2])
    by (repeat constructor).
  split.
  - apply (ticks_keep_session st _ Hes).
  - apply (ticks_keep_session idle _ Hes). reflexivity.
Defined.

End lifecycle_more.
